(** * SupabaseStorage: the drive adapter for a bucket API

    A shallow embedding of [SupabaseStorage.ts]: the error translator
    [handleError], the path normaliser [_fullPath] and the storage
    operations of the class, which run against the bucket API of the
    provider client.  The client is an external service: it is a record of
    operations over an abstract bucket state. *)

From Stdlib Require Import String Ascii List ZArith Bool Lia Arith.
Import ListNotations.

Local Open Scope string_scope.
Local Open Scope list_scope.

(** ** JavaScript values used by the adapter *)

(** The values a [statusCode] property can hold; [e.statusCode === 404] is a
    strict comparison with the number 404. *)
Inductive JsValue : Type :=
| JsUndefined
| JsNumber (z : Z)
| JsString (s : string).

Definition strict_eq_number (v : JsValue) (n : Z) : bool :=
  match v with
  | JsNumber z => Z.eqb z n
  | _ => false
  end.

(** An error object made by the provider client: it is either reported in
    the [error] field of a response or is the reason of a rejected call. *)
Record ProviderError : Type := mkProviderError {
  pe_name : string;
  pe_message : string;
  pe_statusCode : JsValue
}.

(** The error objects the adapter can catch.  [NewError m] is the object
    built by [new Error(m)]: a fresh object, never the provider's own. *)
Inductive JsError : Type :=
| Provided (e : ProviderError)
| NewError (message : string)
| NewTypeError (message : string).

Definition err_name (e : JsError) : string :=
  match e with
  | Provided pe => pe_name pe
  | NewError _ => "Error"
  | NewTypeError _ => "TypeError"
  end.

Definition err_message (e : JsError) : string :=
  match e with
  | Provided pe => pe_message pe
  | NewError m => m
  | NewTypeError m => m
  end.

Definition err_statusCode (e : JsError) : JsValue :=
  match e with
  | Provided pe => pe_statusCode pe
  | NewError _ => JsUndefined
  | NewTypeError _ => JsUndefined
  end.

(** ** The portable errors of the drive package

    [NoSuchBucket(err, bucket)], [FileNotFound(err, path)],
    [PermissionMissing(err, path)] and [UnknownException(err, name, path)]:
    the first argument is the wrapped cause. *)
Inductive PortableError : Type :=
| NoSuchBucket (err : JsError) (bucket : string)
| FileNotFound (err : JsError) (path : string)
| PermissionMissing (err : JsError) (path : string)
| UnknownException (err : JsError) (errorName : string) (path : string).

Definition cause (p : PortableError) : JsError :=
  match p with
  | NoSuchBucket err _ => err
  | FileNotFound err _ => err
  | PermissionMissing err _ => err
  | UnknownException err _ _ => err
  end.

(** What an operation of the adapter can throw to its caller. *)
Inductive Exn : Type :=
| Portable (p : PortableError)
| Native (e : JsError).

(** ** The error translator *)

Definition handleError (err : JsError) (path bucket : string) : PortableError :=
  if err_name err =? "NoSuchBucket" then NoSuchBucket err bucket
  else if err_name err =? "NoSuchKey" then FileNotFound err path
  else if err_name err =? "AllAccessDisabled" then PermissionMissing err path
  else UnknownException err (err_name err) path.

(** ** Paths

    [_fullPath] is [normalize(path.join(this.$root, filePath))].  The two
    functions come from packages outside the repository, Node's [path] and
    [normalize-path]; they are given here as those packages define them
    (the POSIX flavour of [path]; [normalize-path] 3.0).  Both work on the
    characters of the path; a path is kept as its list of characters and
    converted at the boundary. *)
Module Path.

Abbreviation chars := (list ascii).

Definition slash : ascii := "/"%char.
Definition backslash : ascii := "\"%char.
Definition dot : ascii := "."%char.
Definition qmark : ascii := "?"%char.

Definition is_slash (c : ascii) : bool := Ascii.eqb c slash.
Definition is_backslash (c : ascii) : bool := Ascii.eqb c backslash.
(** The character class [[/\\]] of [normalize-path]. *)
Definition is_sep (c : ascii) : bool := is_slash c || is_backslash c.

Definition is_empty (seg : chars) : bool :=
  match seg with [] => true | _ => false end.
Definition is_dot (seg : chars) : bool :=
  match seg with [c] => Ascii.eqb c dot | _ => false end.
Definition is_dotdot (seg : chars) : bool :=
  match seg with [c1; c2] => Ascii.eqb c1 dot && Ascii.eqb c2 dot | _ => false end.

(** [s.split('/')]: the pieces between the slashes, empty pieces kept. *)
Fixpoint split_slash (s : chars) : list chars :=
  match s with
  | [] => [[]]
  | c :: s' =>
      if is_slash c then [] :: split_slash s'
      else match split_slash s' with
           | seg :: rest => (c :: seg) :: rest
           | [] => [[c]]
           end
  end.

(** [segs.join('/')]. *)
Fixpoint join_slash (segs : list chars) : chars :=
  match segs with
  | [] => []
  | [seg] => seg
  | seg :: rest => seg ++ slash :: join_slash rest
  end.

(** [s.split(/[/\\]+/)]: the pieces between maximal runs of separators;
    [in_run] tells that the previous character was a separator. *)
Fixpoint split_seps_from (in_run : bool) (s : chars) : list chars :=
  match s with
  | [] => [[]]
  | c :: s' =>
      if is_sep c then
        if in_run then split_seps_from true s' else [] :: split_seps_from true s'
      else match split_seps_from false s' with
           | seg :: rest => (c :: seg) :: rest
           | [] => [[c]]
           end
  end.

Definition split_seps (s : chars) : list chars := split_seps_from false s.

(** [s.length], [s.lastIndexOf(c)], [s.slice(from, to)] and the test
    [s.charCodeAt(k) === c]. *)
Definition len (s : chars) : Z := Z.of_nat (List.length s).

Fixpoint lastIndexOf (s : chars) (c : ascii) : Z :=
  match s with
  | [] => (-1)%Z
  | x :: s' =>
      let k := lastIndexOf s' c in
      if (0 <=? k)%Z then (k + 1)%Z
      else if Ascii.eqb x c then 0%Z else (-1)%Z
  end.

Definition slice (s : chars) (from to : Z) : chars :=
  firstn (Z.to_nat (to - from)) (skipn (Z.to_nat from) s).

Definition char_is (s : chars) (k : Z) (c : ascii) : bool :=
  match nth_error s (Z.to_nat k) with
  | Some x => (0 <=? k)%Z && Ascii.eqb x c
  | None => false
  end.

(** The variables of the loop of Node's [normalizeString]. *)
Record Scan : Type := mkScan {
  res : chars;
  lastSegmentLength : Z;
  lastSlash : Z;
  dots : Z
}.

(** The end of an iteration that met a separator:
    [lastSlash = i; dots = 0]. *)
Definition next_segment (res : chars) (lastSegmentLength i : Z) : Scan :=
  {| res := res; lastSegmentLength := lastSegmentLength; lastSlash := i; dots := 0 |}.

(** [if (allowAboveRoot) { res += res.length > 0 ? '/..' : '..';
    lastSegmentLength = 2; }] *)
Definition above_root (allowAboveRoot : bool) (i : Z) (st : Scan) : Scan :=
  if allowAboveRoot then
    next_segment
      (if (0 <? len (res st))%Z then res st ++ [slash; dot; dot] else [dot; dot]) 2 i
  else next_segment (res st) (lastSegmentLength st) i.

(** The body of the loop when the character at [i] is a separator. *)
Definition at_separator (path : chars) (allowAboveRoot : bool) (i : Z) (st : Scan) : Scan :=
  if (lastSlash st =? i - 1)%Z || (dots st =? 1)%Z then
    next_segment (res st) (lastSegmentLength st) i
  else if (dots st =? 2)%Z then
    if (len (res st) <? 2)%Z || negb (lastSegmentLength st =? 2)%Z
       || negb (char_is (res st) (len (res st) - 1) dot)
       || negb (char_is (res st) (len (res st) - 2) dot)
    then
      if (2 <? len (res st))%Z then
        let lastSlashIndex := lastIndexOf (res st) slash in
        if (lastSlashIndex =? -1)%Z then next_segment [] 0 i
        else
          let res' := slice (res st) 0 lastSlashIndex in
          next_segment res' (len res' - 1 - lastIndexOf res' slash) i
      else if negb (len (res st) =? 0)%Z then next_segment [] 0 i
      else above_root allowAboveRoot i st
    else above_root allowAboveRoot i st
  else
    next_segment
      (if (0 <? len (res st))%Z
       then res st ++ slash :: slice path (lastSlash st + 1) i
       else slice path (lastSlash st + 1) i)
      (i - lastSlash st - 1) i.

(** The body of the loop for the character [code] at index [i]. *)
Definition scan_char (path : chars) (allowAboveRoot : bool) (i : Z) (code : ascii)
  (st : Scan) : Scan :=
  if is_slash code then at_separator path allowAboveRoot i st
  else if Ascii.eqb code dot && negb (dots st =? -1)%Z then
    {| res := res st; lastSegmentLength := lastSegmentLength st;
       lastSlash := lastSlash st; dots := dots st + 1 |}
  else
    {| res := res st; lastSegmentLength := lastSegmentLength st;
       lastSlash := lastSlash st; dots := -1 |}.

(** [for (let i = 0; i <= path.length; ++i)]: [rest] is the path from index
    [i] on and [code] the character of the previous iteration.  At the end
    of the path the loop stops if the last character was a separator, and
    else runs its body once more, on a separator. *)
Fixpoint scan (path : chars) (allowAboveRoot : bool) (rest : chars) (i : Z) (code : ascii)
  (st : Scan) : chars :=
  match rest with
  | c :: rest' =>
      scan path allowAboveRoot rest' (i + 1) c (scan_char path allowAboveRoot i c st)
  | [] =>
      if is_slash code then res st
      else res (scan_char path allowAboveRoot i slash st)
  end.

(** Modelled from the spec: section 4.1 collapses [.] and [..] and
    redundant separators; this is the function of Node's [path] that does
    it for [path.join],
    [normalizeString(path, allowAboveRoot, '/', isPosixPathSeparator)],
    with the loop above as its body. *)
Definition normalizeString (path : chars) (allowAboveRoot : bool) : chars :=
  scan path allowAboveRoot path 0 zero
       {| res := []; lastSegmentLength := 0; lastSlash := -1; dots := 0 |}.

Definition starts_with_slash (path : chars) : bool :=
  match path with c :: _ => is_slash c | [] => false end.

Definition ends_with_slash (path : chars) : bool :=
  match rev path with c :: _ => is_slash c | [] => false end.

(** Modelled from the spec: [path.posix.normalize] of Node's [path], which
    [path.join] applies to the joined path; it keeps the root slash and a
    trailing slash around the normalised segments. *)
Definition posix_normalize (path : chars) : chars :=
  match path with
  | [] => [dot]
  | _ :: _ =>
      let isAbsolute := starts_with_slash path in
      let trailingSeparator := ends_with_slash path in
      let path' := normalizeString path (negb isAbsolute) in
      match path' with
      | [] =>
          if isAbsolute then [slash]
          else if trailingSeparator then [dot; slash] else [dot]
      | _ :: _ =>
          let path'' := if trailingSeparator then path' ++ [slash] else path' in
          if isAbsolute then slash :: path'' else path''
      end
  end.

(** Modelled from the spec: section 4.1 joins the root prefix and the
    path as path segments; this is [path.posix.join(a, b)] of Node's
    [path]: the non-empty arguments joined by a slash, then normalised;
    [.] when both are empty. *)
Definition posix_join (a b : chars) : chars :=
  let joined :=
    match a, b with
    | [], [] => None
    | [], _ :: _ => Some b
    | _ :: _, [] => Some a
    | _ :: _, _ :: _ => Some (a ++ slash :: b)
    end in
  match joined with
  | None => [dot]
  | Some j => posix_normalize j
  end.

(** The test of [normalize-path] for a win32 namespace ([\\?\] or [\\.\]). *)
Definition win32_namespace (path : chars) : bool :=
  match path with
  | c0 :: c1 :: c2 :: c3 :: _ :: _ =>
      is_backslash c3 && (Ascii.eqb c2 qmark || Ascii.eqb c2 dot)
      && is_backslash c0 && is_backslash c1
  | _ => false
  end.

(** [if (segs[segs.length - 1] === '') segs.pop()] *)
Definition pop_empty (segs : list chars) : list chars :=
  if is_empty (last segs [dot]) then removelast segs else segs.

(** Modelled from the spec: the key uses forward slashes whatever the
    platform (section 3); this is [normalize(path)] of the [normalize-path]
    package: every run of separators becomes one slash and a trailing
    separator is removed. *)
Definition normalize_path (path : chars) : chars :=
  match path with
  | [c] => if is_sep c then [slash] else path
  | [] => path
  | _ :: _ :: _ =>
      let ns := win32_namespace path in
      let prefix := if ns then [slash; slash] else [] in
      let path' := if ns then skipn 2 path else path in
      let segs := split_seps path' in
      prefix ++ join_slash (pop_empty segs)
  end.

(** [s.replace(/^\//, '')]. *)
Definition strip_leading_slash (s : chars) : chars :=
  match s with
  | c :: s' => if is_slash c then s' else s
  | [] => s
  end.

End Path.

Definition str (s : string) : Path.chars := list_ascii_of_string s.
Definition unstr (l : Path.chars) : string := string_of_list_ascii l.

(** [path.join(a, b)] and [normalize(p)] on strings. *)
Definition path_join (a b : string) : string := unstr (Path.posix_join (str a) (str b)).
Definition normalize (p : string) : string := unstr (Path.normalize_path (str p)).

(** ** Configuration and construction *)

Record SupabaseStorageConfig : Type := mkConfig {
  url : string;
  secret : string;
  folder : string;
  root : option string;
  acl : option string
}.

(** The fields the constructor sets (the driver handle is the bucket API
    the operations are run against). *)
Record SupabaseStorage : Type := mkStorage {
  _folder : string;
  _root : string;
  _acl : option string
}.

(** [config.root ? normalize(config.root).replace(/^\//, '') : ''] *)
Definition init_root (r : option string) : string :=
  match r with
  | Some s =>
      if s =? "" then ""
      else unstr (Path.strip_leading_slash (Path.normalize_path (str s)))
  | None => ""
  end.

Definition constructor (config : SupabaseStorageConfig) : SupabaseStorage :=
  {| _folder := folder config;
     _root := init_root (root config);
     _acl := acl config |}.

(** Prefixes the given filePath with the storage root location. *)
Definition _fullPath (this : SupabaseStorage) (filePath : string) : string :=
  normalize (path_join (_root this) filePath).

(** ** Shapes of paths

    The vocabulary in which the properties of [_fullPath] are stated. *)
Module PathShape.
Import Path.

(** [normalizeString] seen on the segments of the path: one step for the
    segment that ends at a slash, [stack] being the result so far, last
    segment first.  An empty segment or [.] is dropped; [..] removes the
    last segment of the result unless there is none or it is [..] itself,
    in which case [..] is kept when [allowAboveRoot]; any other segment is
    appended. *)
Definition normalize_step (allowAboveRoot : bool) (stack : list chars) (seg : chars)
  : list chars :=
  if is_empty seg || is_dot seg then stack
  else if is_dotdot seg then
    match stack with
    | top :: rest =>
        if is_dotdot top then (if allowAboveRoot then seg :: stack else stack)
        else rest
    | [] => if allowAboveRoot then [seg] else []
    end
  else seg :: stack.

Definition normalize_segments (allowAboveRoot : bool) (segs : list chars) : list chars :=
  rev (fold_left (normalize_step allowAboveRoot) segs []).

(** The count of [dots] for the characters read since the last slash:
    their number if all are dots, and -1 otherwise. *)
Definition dots_of (cur : chars) : Z :=
  if forallb (fun c => Ascii.eqb c dot) cur then len cur else (-1)%Z.

(** A segment that names something: not empty, not [.] and not [..]. *)
Definition proper (seg : chars) : bool :=
  negb (is_empty seg || is_dot seg || is_dotdot seg).

(** The results [normalizeString] builds, last segment first: proper
    segments, below them only [..] segments, and those only when
    [allowAboveRoot]. *)
Fixpoint normal_stack (allowAboveRoot : bool) (stack : list chars) : bool :=
  match stack with
  | [] => true
  | seg :: rest =>
      if is_dotdot seg then allowAboveRoot && forallb is_dotdot rest
      else proper seg && normal_stack allowAboveRoot rest
  end.

(** The pieces found after a run of separators: there is a last piece, and
    every piece before it is not empty. *)
Fixpoint inner_nonempty (segs : list chars) : bool :=
  match segs with
  | [] => false
  | [_] => true
  | seg :: rest => negb (is_empty seg) && inner_nonempty rest
  end.

(** A segment without separator. *)
Definition sep_free (seg : chars) : Prop :=
  forall c, In c seg -> is_sep c = false.

(** A piece of a key: not empty and without separator. *)
Definition piece (seg : chars) : Prop := seg <> [] /\ sep_free seg.

(** The key made of normalised segments: the segments joined by slashes
    after the root slash of an absolute path; without segments, the root
    slash alone or [.]. *)
Definition render (isAbsolute : bool) (segs : list chars) : chars :=
  match segs with
  | [] => if isAbsolute then [slash] else [dot]
  | _ :: _ => if isAbsolute then slash :: join_slash segs else join_slash segs
  end.

End PathShape.

(** A path in which no backslash occurs. *)
Definition no_backslash (p : string) : Prop := ~ In Path.backslash (str p).

(** A path that begins with a slash. *)
Definition leading_slash (p : string) : bool := Path.starts_with_slash (str p).

(** A path made of plain names: every segment between its slashes is a
    name (not empty, not [.] and not [..]) without backslash. *)
Definition plain_path (p : string) : Prop :=
  Forall (fun seg => PathShape.proper seg = true /\ PathShape.sep_free seg)
         (Path.split_slash (str p)).

(** ** The bucket API of the provider client *)

Record Blob : Type := mkBlob {
  blob_bytes : list Byte.byte;
  blob_type : string
}.

(** What [blob.arrayBuffer()] resolves to: an [ArrayBuffer], not a Node
    [Buffer] (the [as Buffer] of the source is a type assertion and converts
    nothing). *)
Record ArrayBuffer : Type := mkArrayBuffer {
  ab_bytes : list Byte.byte
}.

Definition arrayBuffer (b : Blob) : ArrayBuffer := {| ab_bytes := blob_bytes b |}.
Definition byteLength (a : ArrayBuffer) : Z := Z.of_nat (List.length (ab_bytes a)).

(** What [blob.stream()] returns. *)
Record NativeStream : Type := mkNativeStream {
  ns_bytes : list Byte.byte
}.

Definition blob_stream (b : Blob) : NativeStream := {| ns_bytes := blob_bytes b |}.

Record SignedUrlData : Type := mkSignedUrlData {
  signedURL : option string
}.

Record FileObject : Type := mkFileObject {
  name : string;
  metadata : string
}.

(** The payloads of [move], [remove] and [upload], passed through as
    [raw]. *)
Inductive Payload : Type :=
| Message (message : string)
| Objects (files : list FileObject)
| Key (key : string).

(** The content [put] accepts: [Buffer | NodeJS.ReadableStream | string]. *)
Inductive PutContent : Type :=
| BufferContent (bytes : list Byte.byte)
| StreamContent (chunks : list (list Byte.byte))
| StringContent (text : string).

(** The [{ data, error }] object a call of the bucket API resolves to. *)
Record Reply (D : Type) : Type := mkReply {
  data : option D;
  error : option ProviderError
}.
Arguments mkReply {D} _ _.
Arguments data {D} _.
Arguments error {D} _.

(** The [{ publicURL, error }] object of the synchronous [getPublicUrl]. *)
Record PublicUrlReply : Type := mkPublicUrlReply {
  publicURL : option string;
  publicUrl_error : option ProviderError
}.

(** How a promise settles. *)
Inductive Settled (E A : Type) : Type :=
| Fulfilled (a : A)
| Rejected (reason : E).
Arguments Fulfilled {E A} _.
Arguments Rejected {E A} _.

Definition Call (St D : Type) : Type := St -> Settled ProviderError (Reply D) * St.

(** [this.$driver.storage.from(bucket)]: the operations of the bucket API
    the adapter uses, over the state [St] of the service. *)
Record BucketApi (St : Type) : Type := mkBucketApi {
  api_move : string -> string -> string -> Call St Payload;
  api_remove : string -> list string -> Call St Payload;
  api_download : string -> string -> Call St Blob;
  api_createSignedUrl : string -> string -> Z -> Call St SignedUrlData;
  api_getPublicUrl : string -> string -> PublicUrlReply;
  api_upload : string -> string -> PutContent -> Call St Payload;
  api_list : string -> string -> Call St (list FileObject)
}.
Arguments api_move {St} _ _ _ _ _.
Arguments api_remove {St} _ _ _ _.
Arguments api_download {St} _ _ _ _.
Arguments api_createSignedUrl {St} _ _ _ _ _.
Arguments api_getPublicUrl {St} _ _ _.
Arguments api_upload {St} _ _ _ _ _.
Arguments api_list {St} _ _ _ _.

(** ** Computations that run against the service and may throw *)

Inductive Outcome (E A : Type) : Type :=
| Returns (a : A)
| Throws (e : E).
Arguments Returns {E A} _.
Arguments Throws {E A} _.

Definition M (St E A : Type) : Type := St -> Outcome E A * St.

Definition ret {St E A} (a : A) : M St E A := fun s => (Returns a, s).

Definition throw {St E A} (e : E) : M St E A := fun s => (Throws e, s).

Definition bind {St E A B} (m : M St E A) (k : A -> M St E B) : M St E B :=
  fun s =>
    match m s with
    | (Returns a, s') => k a s'
    | (Throws e, s') => (Throws e, s')
    end.

(** [try { body } catch (e) { handler }] *)
Definition try_catch {St E E' A} (body : M St E A) (handler : E -> M St E' A) : M St E' A :=
  fun s =>
    match body s with
    | (Returns a, s') => (Returns a, s')
    | (Throws e, s') => handler e s'
    end.

(** [await call]: the reply of a fulfilled call; a rejected call throws its
    reason. *)
Definition await {St D} (call : Call St D) : M St JsError (Reply D) :=
  fun s =>
    match call s with
    | (Fulfilled r, s') => (Returns r, s')
    | (Rejected reason, s') => (Throws (Provided reason), s')
    end.

Declare Scope js_scope.
Delimit Scope js_scope with js.
Notation "x <- m ;; k" := (bind m (fun x => k))
  (at level 61, m at next level, right associativity) : js_scope.
Notation "m ;; k" := (bind m (fun _ => k))
  (at level 61, right associativity) : js_scope.
Local Open Scope js_scope.

(** ** Results of the operations *)

Record Response : Type := mkResponse {
  raw : option Payload
}.

Record DeleteResponse : Type := mkDeleteResponse {
  delete_raw : option Payload;
  wasDeleted : option bool
}.

(** [exists] passes through the downloaded data or the caught error. *)
Inductive ExistsRaw : Type :=
| RawData (d : option Blob)
| RawError (e : JsError).

Record ExistsResponse : Type := mkExistsResponse {
  exists_value : bool;
  exists_raw : ExistsRaw
}.

Record ContentResponse (C : Type) : Type := mkContentResponse {
  content : C;
  content_raw : option Blob
}.
Arguments mkContentResponse {C} _ _.
Arguments content {C} _.
Arguments content_raw {C} _.

Record SignedUrlResponse : Type := mkSignedUrlResponse {
  signedUrl : string;
  signedUrl_raw : option SignedUrlData
}.

Record StatResponse : Type := mkStatResponse {
  size : option Z;
  modified : Z;
  stat_raw : option Blob
}.

Record FileListResponse : Type := mkFileListResponse {
  list_raw : FileObject;
  path : string
}.

Inductive BufferEncoding : Type :=
| ascii_ | utf8 | utf16le | ucs2 | base64 | base64url | latin1 | binary | hex.

(** [content.toString(encoding)] on what [getBuffer] returns as content.
    The content is [undefined] or an [ArrayBuffer]; an [ArrayBuffer] has no
    [toString] of its own, so the call is [Object.prototype.toString], which
    takes no encoding and reads no byte. *)
Definition toString {St} (content : option ArrayBuffer) (encoding : BufferEncoding)
  : M St Exn string :=
  match content with
  | None =>
      throw (Native (NewTypeError
        "Cannot read properties of undefined (reading 'toString')"))
  | Some _ => ret "[object ArrayBuffer]"
  end.

(** [s || ''] on an optional string. *)
Definition or_empty (s : option string) : string :=
  match s with
  | Some u => u
  | None => ""
  end.

(** The truth value of an optional string, as in [while (token)]. *)
Definition truthy (s : option string) : bool :=
  match s with
  | Some u => negb (u =? "")
  | None => false
  end.

(** ** The operations of the adapter *)

Section Operations.

Context {St : Type}.
Variable api : BucketApi St.
Variable Date_now : St -> Z.
Variable this : SupabaseStorage.

(** Copy a file to a location. *)
Definition copy (src dest : string) : M St Exn Response :=
  try_catch
    (r <- await (api_move api (_folder this) src dest) ;;
     match error r with
     | Some err => throw (NewError (pe_message err))
     | None => ret {| raw := data r |}
     end)
    (fun e => throw (Portable (handleError e src (_folder this)))).

(** Delete existing file. *)
Definition delete (location : string) : M St Exn DeleteResponse :=
  try_catch
    (r <- await (api_remove api (_folder this) [location]) ;;
     match error r with
     | Some err => throw (NewError (pe_message err))
     | None => ret {| delete_raw := data r; wasDeleted := None |}
     end)
    (fun e => throw (Portable (handleError e location (_folder this)))).

(** Determines if a file or folder already exists. *)
Definition exists_ (location : string) : M St Exn ExistsResponse :=
  try_catch
    (r <- await (api_download api (_folder this) location) ;;
     match error r with
     | Some err => throw (NewError (pe_message err))
     | None => ret {| exists_value := true; exists_raw := RawData (data r) |}
     end)
    (fun e =>
       if strict_eq_number (err_statusCode e) 404
       then ret {| exists_value := false; exists_raw := RawError e |}
       else throw (Portable (handleError e location (_folder this)))).

(** Returns the file contents as Buffer. *)
Definition getBuffer (location : string) : M St Exn (ContentResponse (option ArrayBuffer)) :=
  try_catch
    (r <- await (api_download api (_folder this) location) ;;
     match error r with
     | Some err => throw (NewError (pe_message err))
     | None =>
         let body := option_map arrayBuffer (data r) in
         ret {| content := body; content_raw := data r |}
     end)
    (fun e => throw (Portable (handleError e location (_folder this)))).

(** Returns the file contents. *)
Definition get (location : string) (encoding : BufferEncoding)
  : M St Exn (ContentResponse string) :=
  bufferResult <- getBuffer location ;;
  text <- toString (content bufferResult) encoding ;;
  ret {| content := text; content_raw := content_raw bufferResult |}.

(** Returns signed url for an existing file. *)
Definition getSignedUrl (location : string) : M St Exn SignedUrlResponse :=
  try_catch
    (r <- await (api_createSignedUrl api (_folder this) location 900) ;;
     match error r with
     | Some err => throw (NewError (pe_message err))
     | None =>
         ret {| signedUrl :=
                  or_empty (match data r with Some d => signedURL d | None => None end);
                signedUrl_raw := data r |}
     end)
    (fun e => throw (Portable (handleError e location (_folder this)))).

(** Returns file's size and modification date. *)
Definition getStat (location : string) : M St Exn StatResponse :=
  try_catch
    (r <- await (api_download api (_folder this) location) ;;
     match error r with
     | Some err => throw (NewError (pe_message err))
     | None =>
         let Blob := option_map arrayBuffer (data r) in
         fun s =>
           (Returns {| size := option_map byteLength Blob;
                       modified := Date_now s;
                       stat_raw := data r |}, s)
     end)
    (fun e => throw (Portable (handleError e location (_folder this)))).

(** Returns url for a given key. *)
Definition getUrl (location : string) : Outcome Exn string :=
  let r := api_getPublicUrl api (_folder this) location in
  match publicUrl_error r with
  | Some err => Throws (Native (NewError (pe_message err)))
  | None => Returns (or_empty (publicURL r))
  end.

(** Moves file from one location to another.  This method will call [copy]
    and [delete] under the hood. *)
Definition move (src dest : string) : M St Exn Response :=
  let src := _fullPath this src in
  let dest := _fullPath this dest in
  copy src dest ;;
  delete src ;;
  ret {| raw := None |}.

(** Creates a new file. *)
Definition put (location : string) (body : PutContent) : M St Exn Response :=
  try_catch
    (r <- await (api_upload api (_folder this) location body) ;;
     match error r with
     | Some err => throw (NewError (pe_message err))
     | None => ret {| raw := data r |}
     end)
    (fun e => throw (Portable (handleError e location (_folder this)))).

(** *** flatList

    The generator is run by a consumer that takes every item: a run is the
    items yielded and how the generator ended ([None]: the loop was still
    going when the fuel ran out). *)
Definition GeneratorRun : Type := list FileListResponse * option (Outcome Exn unit).

(** One pass through the body of the [do ... while] loop: the [try] block
    with its [catch]. *)
Definition flatList_page (prefix : string) : M St Exn (list FileListResponse) :=
  try_catch
    (r <- await (api_list api (_folder this) prefix) ;;
     match error r with
     | Some err => throw (NewError (pe_message err))
     | None =>
         match data r with
         | Some files =>
             ret (map (fun file => {| list_raw := file; path := name file |}) files)
         | None => ret []
         end
     end)
    (fun e => throw (Portable (handleError e prefix (_folder this)))).

(** [do { page } while (continuationToken)]; nothing assigns the token. *)
Fixpoint flatList_loop (fuel : nat) (prefix : string) (continuationToken : option string)
  (s : St) : GeneratorRun * St :=
  match fuel with
  | O => (([], None), s)
  | S fuel' =>
      match flatList_page prefix s with
      | (Throws e, s') => (([], Some (Throws e)), s')
      | (Returns items, s') =>
          if truthy continuationToken then
            let '((more, ending), s'') :=
              flatList_loop fuel' prefix continuationToken s' in
            ((items ++ more, ending), s'')
          else ((items, Some (Returns tt)), s')
      end
  end.

(** Iterate over all files in the bucket. *)
Definition flatList (fuel : nat) (prefix : string) (s : St) : GeneratorRun * St :=
  let prefix := _fullPath this prefix in
  let continuationToken : option string := None in
  flatList_loop fuel prefix continuationToken s.

End Operations.

(** What a call site throws when the reply reports an error: the
    translation of a fresh [Error] that keeps the message only. *)
Definition reported (pe : ProviderError) (p : string) : Exn :=
  Portable (UnknownException (NewError (pe_message pe)) "Error" p).

(** What a call site throws when the call is rejected. *)
Definition rejected (this : SupabaseStorage) (reason : ProviderError) (p : string) : Exn :=
  Portable (handleError (Provided reason) p (_folder this)).

(** ** getStream

    [getStream] creates a [PassThrough] stream and calls [download] inside
    a [try] block.  The call throws at once or returns a promise; the
    reactions attached to the promise run later, when it has settled.  A
    stream is the ['error'] listeners attached to it and the events that
    have reached it. *)

Inductive StreamEvent : Type :=
| PipedFrom (source : NativeStream)
| ErrorEmitted (e : Exn).

Record PassThrough : Type := mkPassThrough {
  highWaterMark : Z;
  error_listeners : nat;
  events : list StreamEvent
}.

Record Range : Type := mkRange {
  range_start : option Z;
  range_end : option Z
}.

(** An event reaches the stream. *)
Definition push (ev : StreamEvent) (st : PassThrough) : PassThrough :=
  {| highWaterMark := highWaterMark st;
     error_listeners := error_listeners st;
     events := events st ++ [ev] |}.

(** [stream.on('error', listener)], by whoever holds the stream. *)
Definition on_error (st : PassThrough) : PassThrough :=
  {| highWaterMark := highWaterMark st;
     error_listeners := S (error_listeners st);
     events := events st |}.

(** The class of the [Blob] a download resolves to is that of the fetch
    the client runs on: the [Blob] of node-fetch or the [Blob] of the
    platform. *)
Inductive BlobClass : Type :=
| NodeFetchBlob
| WebBlob.

(** What [data.stream()] returns: a Node [Readable] from the [Blob] of
    node-fetch, a web [ReadableStream] from the [Blob] of the platform. *)
Inductive BlobStream : Type :=
| Readable (source : NativeStream)
| ReadableStream (source : NativeStream).

Definition stream_of (c : BlobClass) (data : Blob) : BlobStream :=
  match c with
  | NodeFetchBlob => Readable (blob_stream data)
  | WebBlob => ReadableStream (blob_stream data)
  end.

(** [stream.pipe(intermediateStream)]: a web [ReadableStream] has no [pipe]
    method, and calling it is a [TypeError]. *)
Definition pipe (stream : BlobStream) : M PassThrough Exn unit :=
  match stream with
  | Readable source => fun st => (Returns tt, push (PipedFrom source) st)
  | ReadableStream _ => throw (Native (NewTypeError "stream.pipe is not a function"))
  end.

(** [intermediateStream.emit('error', error)]: the event reaches the
    ['error'] listeners of the stream; on a stream without such a listener
    [emit] throws the error instead (an [Error] object is thrown as it is,
    and the errors met here are [Error] objects). *)
Definition emit_error (e : Exn) : M PassThrough Exn unit :=
  fun st =>
    match error_listeners st with
    | O => (Throws e, st)
    | S _ => (Returns tt, push (ErrorEmitted e) st)
    end.

(** The state of a settled promise, taken up by its reactions. *)
Definition settled {St A} (p : Settled ProviderError A) : M St Exn A :=
  match p with
  | Fulfilled a => ret a
  | Rejected reason => throw (Native (Provided reason))
  end.

(** [this.$driver] as [getStream] uses it.  An operation that awaits a call
    inside its [try] block catches a call that throws at once like one
    whose promise is rejected; [getStream] does not await, and there the
    two differ: [download_throws] is the error of a [download] call that
    throws before it has yielded a promise. *)
Record Driver (St : Type) : Type := mkDriver {
  driver_api : BucketApi St;
  download_throws : string -> string -> St -> option JsError;
  blob_class : BlobClass
}.
Arguments mkDriver {St} _ _ _.
Arguments driver_api {St} _.
Arguments download_throws {St} _ _ _ _.
Arguments blob_class {St} _.

(** A download that has been started: the promise the call returned, given
    by the state it settles to, and the stream its reactions feed. *)
Record Job : Type := mkJob {
  job_promise : Settled ProviderError (Reply Blob);
  job_location : string;
  job_stream : nat
}.

(** The service, the downloads not settled yet and the streams created. *)
Record World (St : Type) : Type := mkWorld {
  service : St;
  jobs : list Job;
  streams : list PassThrough
}.
Arguments mkWorld {St} _ _ _.
Arguments service {St} _.
Arguments jobs {St} _.
Arguments streams {St} _.

Fixpoint set_nth {A} (n : nat) (x : A) (l : list A) : list A :=
  match l, n with
  | [], _ => []
  | _ :: l', O => x :: l'
  | y :: l', S n' => y :: set_nth n' x l'
  end.

(** What happens to one stream, as a step of the world. *)
Definition at_stream {St} (stream : nat) (m : M PassThrough Exn unit)
  : M (World St) Exn unit :=
  fun w =>
    match nth_error (streams w) stream with
    | Some st =>
        let (o, st') := m st in
        (o, {| service := service w;
               jobs := jobs w;
               streams := set_nth stream st' (streams w) |})
    | None => (Returns tt, w)
    end.

(** The holder of a stream attaches an ['error'] listener to it. *)
Definition listen {St} (stream : nat) (w : World St) : World St :=
  match nth_error (streams w) stream with
  | Some st =>
      {| service := service w;
         jobs := jobs w;
         streams := set_nth stream (on_error st) (streams w) |}
  | None => w
  end.

Section Streaming.

Context {St : Type}.
Variable driver : Driver St.
Variable this : SupabaseStorage.

(** [new PassThrough({ highWaterMark })] *)
Definition new_PassThrough (hwm : Z) : M (World St) Exn nat :=
  fun w =>
    (Returns (List.length (streams w)),
     {| service := service w;
        jobs := jobs w;
        streams := streams w
                   ++ [{| highWaterMark := hwm; error_listeners := 0; events := [] |}] |}).

(** [this.$driver.storage.from(this.$folder).download(location)
    .then(..).then(..).catch(..)]: the call is made now; it throws, or it
    returns the promise the reactions wait for. *)
Definition start_download (location : string) (intermediateStream : nat)
  : M (World St) Exn unit :=
  fun w =>
    match download_throws driver (_folder this) location (service w) with
    | Some e => (Throws (Native e), w)
    | None =>
        let (p, s') := api_download (driver_api driver) (_folder this) location (service w) in
        (Returns tt,
         {| service := s';
            jobs := jobs w ++ [{| job_promise := p;
                                  job_location := location;
                                  job_stream := intermediateStream |}];
            streams := streams w |})
    end.

(** [intermediateStream.emit('error', error)] *)
Definition emit_error_on (intermediateStream : nat) (e : Exn) : M (World St) Exn unit :=
  at_stream intermediateStream (emit_error e).

(** Returns the stream for the given file. *)
Definition getStream (location : string) (range : option Range) : M (World St) Exn nat :=
  intermediateStream <- new_PassThrough 1 ;;
  try_catch
    (start_download location intermediateStream)
    (fun error => emit_error_on intermediateStream error) ;;
  ret intermediateStream.

(** The first [then]: [({ data, error }) => ...] *)
Definition on_download (r : Reply Blob) : M PassThrough Exn (option BlobStream) :=
  match error r with
  | Some err => throw (Native (NewError (pe_message err)))
  | None =>
      match data r with
      | Some d => ret (Some (stream_of (blob_class driver) d))
      | None => ret None
      end
  end.

(** The second [then]: [(stream) => ...] *)
Definition on_stream (location : string) (stream : option BlobStream)
  : M PassThrough Exn unit :=
  match stream with
  | None =>
      throw (Portable (handleError (NewError "Blobclient stream was not available")
                                   location (_folder this)))
  | Some source => pipe source
  end.

(** The whole chain, run on the intermediate stream once the download has
    settled as [p].  An error thrown by the last reaction, the [catch],
    leaves the promise of the chain rejected, with nothing to handle it. *)
Definition reactions (location : string) (p : Settled ProviderError (Reply Blob))
  : M PassThrough Exn unit :=
  try_catch
    (stream <- (r <- settled p ;; on_download r) ;;
     on_stream location stream)
    (fun error => emit_error error).

(** One turn of the event loop: the pending download at position [n]
    settles and its reactions run. *)
Definition run_job (n : nat) (w : World St) : Outcome Exn unit * World St :=
  match nth_error (jobs w) n with
  | None => (Returns tt, w)
  | Some j =>
      at_stream (job_stream j) (reactions (job_location j) (job_promise j))
        {| service := service w;
           jobs := firstn n (jobs w) ++ skipn (S n) (jobs w);
           streams := streams w |}
  end.

End Streaming.

(** ** Recording the calls made to the bucket API *)

Inductive ApiCall : Type :=
| MoveCall (bucket src dest : string)
| RemoveCall (bucket : string) (keys : list string)
| DownloadCall (bucket location : string)
| CreateSignedUrlCall (bucket location : string) (expiresIn : Z)
| UploadCall (bucket location : string) (body : PutContent)
| ListCall (bucket prefix : string).

Definition logged {St D} (c : ApiCall) (call : Call St D) : Call (St * list ApiCall) D :=
  fun sl =>
    let (r, s') := call (fst sl) in
    (r, (s', snd sl ++ [c])).

(** The same API, with every call appended to a log kept next to the state
    of the service. *)
Definition traced {St} (api : BucketApi St) : BucketApi (St * list ApiCall) :=
  {| api_move b src dest := logged (MoveCall b src dest) (api_move api b src dest);
     api_remove b keys := logged (RemoveCall b keys) (api_remove api b keys);
     api_download b loc := logged (DownloadCall b loc) (api_download api b loc);
     api_createSignedUrl b loc t :=
       logged (CreateSignedUrlCall b loc t) (api_createSignedUrl api b loc t);
     api_getPublicUrl b loc := api_getPublicUrl api b loc;
     api_upload b loc body := logged (UploadCall b loc body) (api_upload api b loc body);
     api_list b prefix := logged (ListCall b prefix) (api_list api b prefix) |}.

(** ** A bucket service in memory *)

Module MemBucket.

(** Modelled from the spec: the bucket service is an external collaborator
    (section 6): [move(srcKey, destKey)] is the provider's rename primitive
    (sections 4.4 and 9), [remove], [download], [upload] and [list] act on
    the keys of one bucket, and every call resolves to a success payload or
    to an error object that carries a symbolic name.  [remove_fault] lets
    [remove] report an error. *)
Record State : Type := mkState {
  objects : list (string * list Byte.byte);
  remove_fault : option ProviderError
}.

Fixpoint lookup (key : string) (objs : list (string * list Byte.byte))
  : option (list Byte.byte) :=
  match objs with
  | [] => None
  | (k, v) :: rest => if k =? key then Some v else lookup key rest
  end.

Definition erase (key : string) (objs : list (string * list Byte.byte))
  : list (string * list Byte.byte) :=
  filter (fun kv => negb (fst kv =? key)) objs.

Definition store (key : string) (v : list Byte.byte) (objs : list (string * list Byte.byte))
  : list (string * list Byte.byte) :=
  (key, v) :: erase key objs.

Definition not_found : ProviderError :=
  {| pe_name := "NoSuchKey";
     pe_message := "Object not found";
     pe_statusCode := JsNumber 404 |}.

Definition ok {D} (d : D) (s : State) : Settled ProviderError (Reply D) * State :=
  (Fulfilled {| data := Some d; error := None |}, s).

Definition failed {D} (e : ProviderError) (s : State)
  : Settled ProviderError (Reply D) * State :=
  (Fulfilled {| data := None; error := Some e |}, s).

Definition bytes_of (body : PutContent) : list Byte.byte :=
  match body with
  | BufferContent bytes => bytes
  | StreamContent chunks => concat chunks
  | StringContent text => list_byte_of_string text
  end.

Definition move (bucket src dest : string) : Call State Payload :=
  fun s =>
    match lookup src (objects s) with
    | Some v =>
        ok (Message "Successfully moved")
           {| objects := store dest v (erase src (objects s));
              remove_fault := remove_fault s |}
    | None => failed not_found s
    end.

Definition remove (bucket : string) (keys : list string) : Call State Payload :=
  fun s =>
    match remove_fault s with
    | Some e => failed e s
    | None =>
        ok (Objects (map (fun k => {| name := k; metadata := "" |}) keys))
           {| objects := fold_right erase (objects s) keys;
              remove_fault := None |}
    end.

Definition download (bucket location : string) : Call State Blob :=
  fun s =>
    match lookup location (objects s) with
    | Some v => ok {| blob_bytes := v; blob_type := "application/octet-stream" |} s
    | None => failed not_found s
    end.

Definition createSignedUrl (bucket location : string) (expiresIn : Z)
  : Call State SignedUrlData :=
  fun s =>
    match lookup location (objects s) with
    | Some _ => ok {| signedURL := Some ("/object/sign/" ++ bucket ++ "/" ++ location)%string |} s
    | None => failed not_found s
    end.

Definition getPublicUrl (bucket location : string) : PublicUrlReply :=
  {| publicURL := Some ("/object/public/" ++ bucket ++ "/" ++ location)%string;
     publicUrl_error := None |}.

Definition upload (bucket location : string) (body : PutContent) : Call State Payload :=
  fun s =>
    ok (Key (bucket ++ "/" ++ location)%string)
       {| objects := store location (bytes_of body) (objects s);
          remove_fault := remove_fault s |}.

Definition list_ (bucket prefix : string) : Call State (list FileObject) :=
  fun s =>
    ok (map (fun kv => {| name := fst kv; metadata := "" |})
            (filter (fun kv => String.prefix prefix (fst kv)) (objects s))) s.

Definition api : BucketApi State :=
  {| api_move := move;
     api_remove := remove;
     api_download := download;
     api_createSignedUrl := createSignedUrl;
     api_getPublicUrl := getPublicUrl;
     api_upload := upload;
     api_list := list_ |}.

End MemBucket.

(** ** A scripted bucket service

    A service without state whose calls settle the way a script says. *)
Module Scripted.

Record Script : Type := mkScript {
  on_move : Settled ProviderError (Reply Payload);
  on_remove : Settled ProviderError (Reply Payload);
  on_download : Settled ProviderError (Reply Blob);
  on_createSignedUrl : Settled ProviderError (Reply SignedUrlData);
  on_getPublicUrl : PublicUrlReply;
  on_upload : Settled ProviderError (Reply Payload);
  on_list : Settled ProviderError (Reply (list FileObject))
}.

Definition api (sc : Script) : BucketApi unit :=
  {| api_move _ _ _ s := (on_move sc, s);
     api_remove _ _ s := (on_remove sc, s);
     api_download _ _ s := (on_download sc, s);
     api_createSignedUrl _ _ _ s := (on_createSignedUrl sc, s);
     api_getPublicUrl _ _ := on_getPublicUrl sc;
     api_upload _ _ _ s := (on_upload sc, s);
     api_list _ _ s := (on_list sc, s) |}.

(** Every call resolves to a reply that reports the error [e]. *)
Definition reporting (e : ProviderError) : Script :=
  {| on_move := Fulfilled {| data := None; error := Some e |};
     on_remove := Fulfilled {| data := None; error := Some e |};
     on_download := Fulfilled {| data := None; error := Some e |};
     on_createSignedUrl := Fulfilled {| data := None; error := Some e |};
     on_getPublicUrl := {| publicURL := None; publicUrl_error := Some e |};
     on_upload := Fulfilled {| data := None; error := Some e |};
     on_list := Fulfilled {| data := None; error := Some e |} |}.

(** Every call is rejected with the reason [e]. *)
Definition rejecting (e : ProviderError) : Script :=
  {| on_move := Rejected e;
     on_remove := Rejected e;
     on_download := Rejected e;
     on_createSignedUrl := Rejected e;
     on_getPublicUrl := {| publicURL := None; publicUrl_error := Some e |};
     on_upload := Rejected e;
     on_list := Rejected e |}.

(** Every call succeeds with an empty payload. *)
Definition empty : Script :=
  {| on_move := Fulfilled {| data := None; error := None |};
     on_remove := Fulfilled {| data := None; error := None |};
     on_download := Fulfilled {| data := None; error := None |};
     on_createSignedUrl := Fulfilled {| data := Some {| signedURL := None |}; error := None |};
     on_getPublicUrl := {| publicURL := None; publicUrl_error := None |};
     on_upload := Fulfilled {| data := None; error := None |};
     on_list := Fulfilled {| data := Some []; error := None |} |}.

End Scripted.

(** [buffer.toString('latin1')] of a Node [Buffer]: one character per byte. *)
Definition latin1_decode (bytes : list Byte.byte) : string := string_of_list_byte bytes.

(** ** Sample configurations and services *)

Definition assets_storage : SupabaseStorage :=
  constructor {| url := "https://project.example"; secret := "key";
                 folder := "media"; root := Some "assets"; acl := None |}.


Definition rootless_storage : SupabaseStorage :=
  constructor {| url := "https://project.example"; secret := "key";
                 folder := "media"; root := None; acl := None |}.

Definition hello : list Byte.byte := list_byte_of_string "hello".

Definition access_disabled : ProviderError :=
  {| pe_name := "AllAccessDisabled";
     pe_message := "All access to this object has been disabled";
     pe_statusCode := JsNumber 403 |}.

(** A bucket that holds [assets/x.png] and [hello.txt]. *)
Definition sample_bucket : MemBucket.State :=
  {| MemBucket.objects := [("assets/x.png", hello); ("hello.txt", hello)];
     MemBucket.remove_fault := None |}.

(** The same bucket, in which [remove] reports an error. *)
Definition locked_bucket : MemBucket.State :=
  {| MemBucket.objects := [("assets/x.png", hello); ("hello.txt", hello)];
     MemBucket.remove_fault := Some access_disabled |}.

(** [locked_bucket] after its [move] has renamed [assets/x.png] to
    [assets/y.png]. *)
Definition renamed_bucket : MemBucket.State :=
  {| MemBucket.objects := [("assets/y.png", hello); ("hello.txt", hello)];
     MemBucket.remove_fault := Some access_disabled |}.

(** A world in which no download is pending and no stream is open. *)
Definition idle_world : World MemBucket.State :=
  {| service := sample_bucket; jobs := []; streams := [] |}.

(** A client on node-fetch, one on the fetch of the platform, and one on
    which the [download] call throws before it yields a promise (it has no
    [storage]). *)
Definition node_driver : Driver MemBucket.State :=
  {| driver_api := MemBucket.api;
     download_throws := fun _ _ _ => None;
     blob_class := NodeFetchBlob |}.

Definition web_driver : Driver MemBucket.State :=
  {| driver_api := MemBucket.api;
     download_throws := fun _ _ _ => None;
     blob_class := WebBlob |}.

Definition throwing_driver : Driver MemBucket.State :=
  {| driver_api := MemBucket.api;
     download_throws := fun _ _ _ => Some (NewTypeError "Cannot read properties of undefined (reading 'from')");
     blob_class := NodeFetchBlob |}.

(** A stream nothing has happened to yet, as [getStream] creates it. *)
Definition fresh_stream : PassThrough :=
  {| highWaterMark := 1; error_listeners := 0; events := [] |}.

(** The world after [getStream] has been called for a location in
    [idle_world] and the caller has attached an ['error'] listener to the
    stream it was given. *)
Definition listening_world (driver : Driver MemBucket.State) (location : string)
  : World MemBucket.State :=
  listen 0 (snd (getStream driver rootless_storage location None idle_world)).

(** A configuration whose root is written with slashes around it. *)
Definition slashed_config : SupabaseStorageConfig :=
  {| url := "https://project.example"; secret := "key";
     folder := "media"; root := Some "/assets//"; acl := None |}.

(** * Properties *)

(** ** The error translator *)

(** C3: [handleError] maps an error named NoSuchBucket to [NoSuchBucket]
    with the bucket name, NoSuchKey to [FileNotFound] with the path,
    AllAccessDisabled to [PermissionMissing] with the path, and an error of
    any other name to [UnknownException] with that name and the path; the
    error itself is the cause in every case. *)
Theorem handleError_classification :
  forall (err : JsError) (path bucket : string),
    (err_name err = "NoSuchBucket" ->
     handleError err path bucket = NoSuchBucket err bucket) /\
    (err_name err = "NoSuchKey" ->
     handleError err path bucket = FileNotFound err path) /\
    (err_name err = "AllAccessDisabled" ->
     handleError err path bucket = PermissionMissing err path) /\
    (err_name err <> "NoSuchBucket" ->
     err_name err <> "NoSuchKey" ->
     err_name err <> "AllAccessDisabled" ->
     handleError err path bucket = UnknownException err (err_name err) path).
Proof.
  intros err path bucket. unfold handleError.
  repeat split.
  - intros ->. reflexivity.
  - intros ->. reflexivity.
  - intros ->. reflexivity.
  - intros H1 H2 H3.
    apply String.eqb_neq in H1, H2, H3.
    rewrite H1, H2, H3. reflexivity.
Qed.

Lemma handleError_classification_witness :
  handleError (Provided (mkProviderError "NoSuchBucket" "gone" JsUndefined)) "a/b.txt" "media"
    = NoSuchBucket (Provided (mkProviderError "NoSuchBucket" "gone" JsUndefined)) "media"
  /\ handleError (Provided (mkProviderError "NoSuchKey" "gone" JsUndefined)) "a/b.txt" "media"
    = FileNotFound (Provided (mkProviderError "NoSuchKey" "gone" JsUndefined)) "a/b.txt"
  /\ handleError (Provided access_disabled) "a/b.txt" "media"
    = PermissionMissing (Provided access_disabled) "a/b.txt"
  /\ handleError (NewError "boom") "a/b.txt" "media"
    = UnknownException (NewError "boom") "Error" "a/b.txt".
Proof.
  split; [| split; [| split]].
  - apply (proj1 (handleError_classification _ "a/b.txt" "media")). reflexivity.
  - apply (proj1 (proj2 (handleError_classification _ "a/b.txt" "media"))). reflexivity.
  - apply (proj1 (proj2 (proj2 (handleError_classification _ "a/b.txt" "media")))).
    reflexivity.
  - apply (proj2 (proj2 (proj2 (handleError_classification
                                  (NewError "boom") "a/b.txt" "media"))));
      simpl; discriminate.
Defined.

Lemma handleError_cause :
  forall err path bucket, cause (handleError err path bucket) = err.
Proof.
  intros err path bucket. unfold handleError.
  destruct (err_name err =? "NoSuchBucket"); [reflexivity |].
  destruct (err_name err =? "NoSuchKey"); [reflexivity |].
  destruct (err_name err =? "AllAccessDisabled"); reflexivity.
Qed.

(** The translation of the object built by [new Error(message)]. *)
Lemma handleError_NewError :
  forall message path bucket,
    handleError (NewError message) path bucket
    = UnknownException (NewError message) "Error" path.
Proof. reflexivity. Qed.

(** ** Provider calls and their errors *)

Section CallSites.

Context {St : Type}.
Variable api : BucketApi St.
Variable Date_now : St -> Z.
Variable this : SupabaseStorage.

Ltac run_call H :=
  unfold copy, delete, exists_, getBuffer, getSignedUrl, getStat, put, flatList_page,
    try_catch, bind, await, throw, ret;
  rewrite H; simpl;
  repeat match goal with
         | Hr : _ = _ |- _ => rewrite Hr; simpl
         end;
  try reflexivity.

Lemma copy_returns :
  forall src dest s d s',
    api_move api (_folder this) src dest s = (Fulfilled {| data := d; error := None |}, s') ->
    copy api this src dest s = (Returns {| raw := d |}, s').
Proof. intros src dest s d s' H. run_call H. Qed.

Lemma copy_reported :
  forall src dest s r pe s',
    api_move api (_folder this) src dest s = (Fulfilled r, s') ->
    error r = Some pe ->
    copy api this src dest s = (Throws (reported pe src), s').
Proof. intros src dest s r pe s' H Hr. run_call H. Qed.

Lemma copy_rejected :
  forall src dest s reason s',
    api_move api (_folder this) src dest s = (Rejected reason, s') ->
    copy api this src dest s = (Throws (rejected this reason src), s').
Proof. intros src dest s reason s' H. run_call H. Qed.

Lemma delete_returns :
  forall location s d s',
    api_remove api (_folder this) [location] s
      = (Fulfilled {| data := d; error := None |}, s') ->
    delete api this location s = (Returns {| delete_raw := d; wasDeleted := None |}, s').
Proof. intros location s d s' H. run_call H. Qed.

Lemma delete_reported :
  forall location s r pe s',
    api_remove api (_folder this) [location] s = (Fulfilled r, s') ->
    error r = Some pe ->
    delete api this location s = (Throws (reported pe location), s').
Proof. intros location s r pe s' H Hr. run_call H. Qed.

Lemma delete_rejected :
  forall location s reason s',
    api_remove api (_folder this) [location] s = (Rejected reason, s') ->
    delete api this location s = (Throws (rejected this reason location), s').
Proof. intros location s reason s' H. run_call H. Qed.

Lemma exists_returns_true :
  forall location s d s',
    api_download api (_folder this) location s
      = (Fulfilled {| data := d; error := None |}, s') ->
    exists_ api this location s
      = (Returns {| exists_value := true; exists_raw := RawData d |}, s').
Proof. intros location s d s' H. run_call H. Qed.

(** A reply that reports an error never makes [exists] answer: whatever
    the status code of the reported error, the fresh [Error] that is caught
    has none. *)
Lemma exists_reported :
  forall location s r pe s',
    api_download api (_folder this) location s = (Fulfilled r, s') ->
    error r = Some pe ->
    exists_ api this location s = (Throws (reported pe location), s').
Proof. intros location s r pe s' H Hr. run_call H. Qed.

Lemma exists_rejected_404 :
  forall location s reason s',
    api_download api (_folder this) location s = (Rejected reason, s') ->
    pe_statusCode reason = JsNumber 404 ->
    exists_ api this location s
      = (Returns {| exists_value := false; exists_raw := RawError (Provided reason) |}, s').
Proof. intros location s reason s' H Hc. run_call H. Qed.

Lemma exists_rejected_other :
  forall location s reason s',
    api_download api (_folder this) location s = (Rejected reason, s') ->
    strict_eq_number (pe_statusCode reason) 404 = false ->
    exists_ api this location s = (Throws (rejected this reason location), s').
Proof. intros location s reason s' H Hc. run_call H. Qed.

Lemma getBuffer_returns :
  forall location s d s',
    api_download api (_folder this) location s
      = (Fulfilled {| data := d; error := None |}, s') ->
    getBuffer api this location s
      = (Returns {| content := option_map arrayBuffer d; content_raw := d |}, s').
Proof. intros location s d s' H. run_call H. Qed.

Lemma getBuffer_reported :
  forall location s r pe s',
    api_download api (_folder this) location s = (Fulfilled r, s') ->
    error r = Some pe ->
    getBuffer api this location s = (Throws (reported pe location), s').
Proof. intros location s r pe s' H Hr. run_call H. Qed.

Lemma getBuffer_rejected :
  forall location s reason s',
    api_download api (_folder this) location s = (Rejected reason, s') ->
    getBuffer api this location s = (Throws (rejected this reason location), s').
Proof. intros location s reason s' H. run_call H. Qed.

Lemma getSignedUrl_returns :
  forall location s d s',
    api_createSignedUrl api (_folder this) location 900 s
      = (Fulfilled {| data := d; error := None |}, s') ->
    getSignedUrl api this location s
      = (Returns {| signedUrl :=
                      or_empty (match d with Some x => signedURL x | None => None end);
                    signedUrl_raw := d |}, s').
Proof. intros location s d s' H. run_call H. Qed.

Lemma getSignedUrl_reported :
  forall location s r pe s',
    api_createSignedUrl api (_folder this) location 900 s = (Fulfilled r, s') ->
    error r = Some pe ->
    getSignedUrl api this location s = (Throws (reported pe location), s').
Proof. intros location s r pe s' H Hr. run_call H. Qed.

Lemma getStat_reported :
  forall location s r pe s',
    api_download api (_folder this) location s = (Fulfilled r, s') ->
    error r = Some pe ->
    getStat api Date_now this location s = (Throws (reported pe location), s').
Proof. intros location s r pe s' H Hr. run_call H. Qed.

Lemma put_reported :
  forall location body s r pe s',
    api_upload api (_folder this) location body s = (Fulfilled r, s') ->
    error r = Some pe ->
    put api this location body s = (Throws (reported pe location), s').
Proof. intros location body s r pe s' H Hr. run_call H. Qed.

End CallSites.

(** ** exists *)

(** C2: the bucket reports a missing object in the [error] field of the
    reply to [download], with status code 404; [exists] then rethrows a
    fresh [Error] that has no status code, and throws its translation
    instead of returning [{ exists: false }]. *)
Theorem exists_reported_not_found_throws :
  MemBucket.download "media" "missing.txt" sample_bucket
    = (Fulfilled {| data := None; error := Some MemBucket.not_found |}, sample_bucket)
  /\ pe_statusCode MemBucket.not_found = JsNumber 404
  /\ exists_ MemBucket.api rootless_storage "missing.txt" sample_bucket
     = (Throws (Portable (UnknownException (NewError "Object not found")
                                           "Error" "missing.txt")),
        sample_bucket).
Proof. repeat split. Qed.

(** ** The cause of the errors thrown *)

(** C4: when a reply reports the error object [e], each of the seven call
    sites throws the translation of a fresh [Error] made from the message
    of [e]; the object [e] is not the cause of what is thrown. *)
Theorem reported_error_object_is_discarded :
  forall (e : ProviderError) (this : SupabaseStorage) (now : unit -> Z)
         (src dest location : string) (body : PutContent),
    let api := Scripted.api (Scripted.reporting e) in
    fst (copy api this src dest tt) = Throws (reported e src)
    /\ fst (delete api this location tt) = Throws (reported e location)
    /\ fst (exists_ api this location tt) = Throws (reported e location)
    /\ fst (getBuffer api this location tt) = Throws (reported e location)
    /\ fst (getSignedUrl api this location tt) = Throws (reported e location)
    /\ fst (getStat api now this location tt) = Throws (reported e location)
    /\ fst (put api this location body tt) = Throws (reported e location)
    /\ (forall p, exists q,
           reported e p = Portable q
           /\ cause q = NewError (pe_message e)
           /\ cause q <> Provided e).
Proof.
  intros e this now src dest location body api.
  repeat split.
  intros p. exists (UnknownException (NewError (pe_message e)) "Error" p).
  repeat split. simpl. discriminate.
Qed.

(** A rejected call is the one path on which the provider's object is
    kept as the cause. *)
Lemma rejected_cause :
  forall this reason p,
    exists q, rejected this reason p = Portable q /\ cause q = Provided reason.
Proof.
  intros this reason p. exists (handleError (Provided reason) p (_folder this)).
  split; [reflexivity | apply handleError_cause].
Qed.

(** ** URLs *)

(** C10: when [createSignedUrl] succeeds with a payload that has no
    [signedURL], [getSignedUrl] returns the empty string as [signedUrl];
    when [getPublicUrl] succeeds without a [publicURL], [getUrl] returns the
    empty string. *)
Theorem url_defaults_to_empty_string :
  forall (St : Type) (api : BucketApi St) (this : SupabaseStorage)
         (location : string) (s s' : St) (d : option SignedUrlData),
    (api_createSignedUrl api (_folder this) location 900 s
       = (Fulfilled {| data := d; error := None |}, s') ->
     match d with Some x => signedURL x | None => None end = None ->
     getSignedUrl api this location s
       = (Returns {| signedUrl := ""; signedUrl_raw := d |}, s'))
    /\ (publicUrl_error (api_getPublicUrl api (_folder this) location) = None ->
        publicURL (api_getPublicUrl api (_folder this) location) = None ->
        getUrl api this location = Returns "").
Proof.
  intros St api this location s s' d. split.
  - intros H Hd. rewrite (getSignedUrl_returns api this location s d s' H).
    rewrite Hd. reflexivity.
  - intros He Hu. unfold getUrl. rewrite He, Hu. reflexivity.
Qed.

Lemma url_defaults_to_empty_string_witness :
  getSignedUrl (Scripted.api Scripted.empty) rootless_storage "a.txt" tt
    = (Returns {| signedUrl := ""; signedUrl_raw := Some {| signedURL := None |} |}, tt)
  /\ getUrl (Scripted.api Scripted.empty) rootless_storage "a.txt" = Returns "".
Proof.
  split.
  - apply (proj1 (url_defaults_to_empty_string unit (Scripted.api Scripted.empty)
                    rootless_storage "a.txt" tt tt (Some {| signedURL := None |})));
      reflexivity.
  - apply (proj2 (url_defaults_to_empty_string unit (Scripted.api Scripted.empty)
                    rootless_storage "a.txt" tt tt None));
      reflexivity.
Defined.

(** ** get and getBuffer *)

Section Reading.

Context {St : Type}.
Variable api : BucketApi St.
Variable this : SupabaseStorage.

(** [get] passes the failure of [getBuffer] on. *)
Lemma get_propagates_failure :
  forall location encoding s e s',
    getBuffer api this location s = (Throws e, s') ->
    get api this location encoding s = (Throws e, s').
Proof.
  intros location encoding s e s' H. unfold get, bind. rewrite H. reflexivity.
Qed.

(** The text [get] returns for a downloaded object depends neither on the
    bytes of the object nor on the encoding; the raw payload is that of
    [getBuffer]. *)
Lemma get_of_array_buffer :
  forall location encoding s buffer payload s',
    getBuffer api this location s
      = (Returns {| content := Some buffer; content_raw := payload |}, s') ->
    get api this location encoding s
      = (Returns {| content := "[object ArrayBuffer]"; content_raw := payload |}, s').
Proof.
  intros location encoding s buffer payload s' H. unfold get, bind. rewrite H. reflexivity.
Qed.

(** When the reply has neither data nor error, [getBuffer] returns an
    undefined content and [get] throws a [TypeError]. *)
Lemma get_of_undefined :
  forall location encoding s payload s',
    getBuffer api this location s
      = (Returns {| content := None; content_raw := payload |}, s') ->
    get api this location encoding s
      = (Throws (Native (NewTypeError
                   "Cannot read properties of undefined (reading 'toString')")), s').
Proof.
  intros location encoding s payload s' H. unfold get, bind. rewrite H. reflexivity.
Qed.

End Reading.

(** C7: [getBuffer] returns the five bytes of [hello.txt], which decode to
    the text hello, and [get] returns the text [[object ArrayBuffer]] with
    the same raw payload. *)
Theorem get_does_not_decode :
  getBuffer MemBucket.api rootless_storage "hello.txt" sample_bucket
    = (Returns {| content := Some {| ab_bytes := hello |};
                  content_raw := Some {| blob_bytes := hello;
                                         blob_type := "application/octet-stream" |} |},
       sample_bucket)
  /\ latin1_decode hello = "hello"
  /\ get MemBucket.api rootless_storage "hello.txt" latin1 sample_bucket
     = (Returns {| content := "[object ArrayBuffer]";
                   content_raw := Some {| blob_bytes := hello;
                                          blob_type := "application/octet-stream" |} |},
        sample_bucket).
Proof. repeat split. Qed.

(** ** The calls an operation makes *)

Section Tracing.

Context {St : Type}.
Variable api : BucketApi St.
Variable this : SupabaseStorage.

Ltac run_traced :=
  unfold copy, delete, flatList_page, try_catch, bind, await, throw, ret;
  simpl; unfold logged; simpl;
  repeat match goal with
         | |- context [api_move ?a ?b ?c ?d ?s] => destruct (api_move a b c d s) as [[? | ?] ?]
         | |- context [api_remove ?a ?b ?c ?s] => destruct (api_remove a b c s) as [[? | ?] ?]
         | |- context [api_list ?a ?b ?c ?s] => destruct (api_list a b c s) as [[? | ?] ?]
         | |- context [error ?r] => destruct (error r)
         | |- context [data ?r] => destruct (data r)
         end;
  simpl; reflexivity.

(** The traced service behaves as the service itself and logs one [move]
    call for [copy]. *)
Lemma traced_copy :
  forall src dest s log,
    copy (traced api) this src dest (s, log)
    = (fst (copy api this src dest s),
       (snd (copy api this src dest s), log ++ [MoveCall (_folder this) src dest])).
Proof. intros src dest s log. run_traced. Qed.

Lemma traced_delete :
  forall location s log,
    delete (traced api) this location (s, log)
    = (fst (delete api this location s),
       (snd (delete api this location s), log ++ [RemoveCall (_folder this) [location]])).
Proof. intros location s log. run_traced. Qed.

Lemma traced_flatList_page :
  forall prefix s log,
    flatList_page (traced api) this prefix (s, log)
    = (fst (flatList_page api this prefix s),
       (snd (flatList_page api this prefix s), log ++ [ListCall (_folder this) prefix])).
Proof. intros prefix s log. run_traced. Qed.

(** With the token never set, the loop ends after its first pass. *)
Lemma flatList_loop_one_pass :
  forall (api' : BucketApi (St * list ApiCall)) fuel prefix sl,
    flatList_loop api' this (S fuel) prefix None sl
    = match flatList_page api' this prefix sl with
      | (Throws e, sl') => (([], Some (Throws e)), sl')
      | (Returns items, sl') => ((items, Some (Returns tt)), sl')
      end.
Proof. intros api' fuel prefix sl. reflexivity. Qed.

End Tracing.

(** ** move *)

(** C1 (amended): [move] normalises both paths with [_fullPath], calls
    [copy] on the two full keys and then [delete] on the full source key.
    If [copy] throws, [move] throws the same and the only call made is the
    provider's [move]; if [delete] throws after [copy] returned, [move]
    throws what [delete] threw, exactly these two calls were made and the
    service is left as [delete] left it; if both return, [move] returns
    [{ raw: undefined }]. *)
Theorem move_copies_then_deletes :
  forall (St : Type) (api : BucketApi St) (this : SupabaseStorage)
         (src dest : string) (s : St),
    let full_src := _fullPath this src in
    let full_dest := _fullPath this dest in
    (forall e s1,
        copy api this full_src full_dest s = (Throws e, s1) ->
        move (traced api) this src dest (s, [])
        = (Throws e, (s1, [MoveCall (_folder this) full_src full_dest])))
    /\ (forall r s1 e s2,
           copy api this full_src full_dest s = (Returns r, s1) ->
           delete api this full_src s1 = (Throws e, s2) ->
           move (traced api) this src dest (s, [])
           = (Throws e, (s2, [MoveCall (_folder this) full_src full_dest;
                              RemoveCall (_folder this) [full_src]])))
    /\ (forall r s1 d s2,
           copy api this full_src full_dest s = (Returns r, s1) ->
           delete api this full_src s1 = (Returns d, s2) ->
           move (traced api) this src dest (s, [])
           = (Returns {| raw := None |},
              (s2, [MoveCall (_folder this) full_src full_dest;
                    RemoveCall (_folder this) [full_src]]))).
Proof.
  intros St api this src dest s full_src full_dest.
  repeat split.
  - intros e s1 Hc. unfold move, bind.
    fold full_src. fold full_dest.
    rewrite traced_copy, Hc. reflexivity.
  - intros r s1 e s2 Hc Hd. unfold move, bind.
    fold full_src. fold full_dest.
    rewrite traced_copy, Hc. simpl.
    rewrite traced_delete, Hd. reflexivity.
  - intros r s1 d s2 Hc Hd. unfold move, bind.
    fold full_src. fold full_dest.
    rewrite traced_copy, Hc. simpl.
    rewrite traced_delete, Hd. reflexivity.
Qed.

Lemma move_copies_then_deletes_witness :
  move (traced MemBucket.api) assets_storage "missing.png" "y.png" (sample_bucket, [])
    = (Throws (reported MemBucket.not_found "assets/missing.png"),
       (sample_bucket, [MoveCall "media" "assets/missing.png" "assets/y.png"]))
  /\ move (traced MemBucket.api) assets_storage "x.png" "y.png" (locked_bucket, [])
    = (Throws (reported access_disabled "assets/x.png"),
       (renamed_bucket,
        [MoveCall "media" "assets/x.png" "assets/y.png";
         RemoveCall "media" ["assets/x.png"]]))
  /\ move (traced MemBucket.api) assets_storage "x.png" "y.png" (sample_bucket, [])
    = (Returns {| raw := None |},
       ({| MemBucket.objects := [("assets/y.png", hello); ("hello.txt", hello)];
           MemBucket.remove_fault := None |},
        [MoveCall "media" "assets/x.png" "assets/y.png";
         RemoveCall "media" ["assets/x.png"]])).
Proof.
  split; [| split].
  - apply (proj1 (move_copies_then_deletes MemBucket.State MemBucket.api assets_storage
                    "missing.png" "y.png" sample_bucket)).
    reflexivity.
  - eapply (proj1 (proj2 (move_copies_then_deletes MemBucket.State MemBucket.api
                            assets_storage "x.png" "y.png" locked_bucket)));
      reflexivity.
  - eapply (proj2 (proj2 (move_copies_then_deletes MemBucket.State MemBucket.api
                            assets_storage "x.png" "y.png" sample_bucket)));
      reflexivity.
Defined.

(** C1 as stated fails: in a bucket whose [move] renames and whose
    [remove] reports an error, [copy] returns, [delete] throws, and the
    object is then at the destination only: nothing is stored under the
    source key and [exists] does not answer true for it. *)
Lemma move_failed_delete_leaves_one_copy :
  copy MemBucket.api assets_storage
       (_fullPath assets_storage "x.png") (_fullPath assets_storage "y.png") locked_bucket
    = (Returns {| raw := Some (Message "Successfully moved") |}, renamed_bucket)
  /\ delete MemBucket.api assets_storage (_fullPath assets_storage "x.png") renamed_bucket
    = (Throws (reported access_disabled "assets/x.png"), renamed_bucket)
  /\ snd (move MemBucket.api assets_storage "x.png" "y.png" locked_bucket) = renamed_bucket
  /\ fst (exists_ MemBucket.api assets_storage (_fullPath assets_storage "y.png")
                  renamed_bucket)
    = Returns {| exists_value := true;
                 exists_raw := RawData (Some {| blob_bytes := hello;
                                                blob_type := "application/octet-stream" |}) |}
  /\ MemBucket.lookup (_fullPath assets_storage "x.png") (MemBucket.objects renamed_bucket)
    = None
  /\ ~ (exists payload s,
           exists_ MemBucket.api assets_storage (_fullPath assets_storage "x.png")
                   renamed_bucket
           = (Returns {| exists_value := true; exists_raw := payload |}, s)).
Proof.
  repeat split.
  intros [payload [s H]]. vm_compute in H. discriminate H.
Qed.

(** ** flatList *)

(** C9: whatever the fuel, the loop of [flatList] ends after one pass, in
    which the bucket is asked once for the listing of the normalised
    prefix; a listing with entries yields one item per entry, with the
    entry as [raw] and its name as [path], and a listing without entries
    (an empty array or no data) yields nothing and ends normally. *)
Theorem flatList_single_page :
  forall (St : Type) (api : BucketApi St) (this : SupabaseStorage)
         (fuel : nat) (prefix : string) (s : St),
    let full := _fullPath this prefix in
    let run := flatList (traced api) this (S fuel) prefix (s, []) in
    snd (snd run) = [ListCall (_folder this) full]
    /\ snd (fst run) <> None
    /\ (forall files s',
           api_list api (_folder this) full s
             = (Fulfilled {| data := Some files; error := None |}, s') ->
           fst run = (map (fun file => {| list_raw := file; path := name file |}) files,
                      Some (Returns tt)))
    /\ (forall s',
           api_list api (_folder this) full s
             = (Fulfilled {| data := None; error := None |}, s') ->
           fst run = ([], Some (Returns tt))).
Proof.
  intros St api this fuel prefix s full run.
  assert (Hrun : run = match flatList_page api this full s with
                       | (Throws e, s') =>
                           (([], Some (Throws e)), (s', [ListCall (_folder this) full]))
                       | (Returns items, s') =>
                           ((items, Some (Returns tt)), (s', [ListCall (_folder this) full]))
                       end).
  { unfold run, flatList. fold full.
    rewrite flatList_loop_one_pass, traced_flatList_page.
    destruct (flatList_page api this full s) as [[items | e] s']; reflexivity. }
  rewrite Hrun. repeat split.
  - destruct (flatList_page api this full s) as [[items | e] s']; reflexivity.
  - destruct (flatList_page api this full s) as [[items | e] s']; discriminate.
  - intros files s' H.
    unfold flatList_page, try_catch, bind, await. rewrite H. reflexivity.
  - intros s' H.
    unfold flatList_page, try_catch, bind, await. rewrite H. reflexivity.
Qed.

Lemma flatList_single_page_witness :
  fst (flatList (traced MemBucket.api) assets_storage 3 "" (sample_bucket, []))
    = ([{| list_raw := {| name := "assets/x.png"; metadata := "" |};
           path := "assets/x.png" |}],
       Some (Returns tt))
  /\ fst (flatList (traced (Scripted.api Scripted.empty)) assets_storage 1 "" (tt, []))
    = ([], Some (Returns tt)).
Proof.
  split.
  - apply (proj1 (proj2 (proj2 (flatList_single_page MemBucket.State MemBucket.api
                                  assets_storage 2 "" sample_bucket)))
             [{| name := "assets/x.png"; metadata := "" |}] sample_bucket).
    reflexivity.
  - apply (proj1 (proj2 (proj2 (flatList_single_page unit (Scripted.api Scripted.empty)
                                  assets_storage 0 "" tt)))
             [] tt).
    reflexivity.
Defined.

(** ** getStream *)

Lemma nth_error_app_last :
  forall {A} (l : list A) (x : A), nth_error (l ++ [x]) (List.length l) = Some x.
Proof.
  induction l as [| a l IH]; intros x; simpl; [reflexivity | apply IH].
Qed.

Lemma set_nth_last :
  forall {A} (l : list A) (x y : A), set_nth (List.length l) y (l ++ [x]) = l ++ [y].
Proof.
  induction l as [| a l IH]; intros x y; simpl; [reflexivity | now rewrite IH].
Qed.

Lemma set_nth_same :
  forall {A} (n : nat) (l : list A) (x : A), nth_error l n = Some x -> set_nth n x l = l.
Proof.
  induction n as [| n IH]; intros [| a l] x H; simpl in *; try discriminate; try reflexivity.
  - now injection H as ->.
  - now rewrite (IH l x H).
Qed.

Lemma without_last :
  forall {A} (l : list A) (x : A),
    firstn (List.length l) (l ++ [x]) ++ skipn (S (List.length l)) (l ++ [x]) = l.
Proof.
  induction l as [| a l IH]; intros x; simpl; [reflexivity | now rewrite IH].
Qed.

Section StreamFacts.

Context {St : Type}.
Variable driver : Driver St.
Variable this : SupabaseStorage.

(** A rejected download: the reason goes to [emit]. *)
Lemma reactions_rejected :
  forall location reason st,
    reactions driver this location (Rejected reason) st
    = emit_error (Native (Provided reason)) st.
Proof. reflexivity. Qed.

(** A reply that reports an error: a fresh [Error] goes to [emit]. *)
Lemma reactions_reported :
  forall location r pe st,
    error r = Some pe ->
    reactions driver this location (Fulfilled r) st
    = emit_error (Native (NewError (pe_message pe))) st.
Proof.
  intros location r pe st H.
  unfold reactions, try_catch, bind, settled, ret, on_download. rewrite H. reflexivity.
Qed.

(** A reply without data: the translated stream-not-available error goes
    to [emit]. *)
Lemma reactions_no_data :
  forall location st,
    reactions driver this location (Fulfilled {| data := None; error := None |}) st
    = emit_error
        (Portable (handleError (NewError "Blobclient stream was not available")
                               location (_folder this))) st.
Proof. reflexivity. Qed.

(** A reply with data: the stream of the blob is piped in when it is a
    Node stream; a web stream has no [pipe], and the [TypeError] of the
    call goes to [emit]. *)
Lemma reactions_data :
  forall location d st,
    reactions driver this location (Fulfilled {| data := Some d; error := None |}) st
    = match blob_class driver with
      | NodeFetchBlob => (Returns tt, push (PipedFrom (blob_stream d)) st)
      | WebBlob => emit_error (Native (NewTypeError "stream.pipe is not a function")) st
      end.
Proof.
  intros location d st.
  unfold reactions, try_catch, bind, settled, ret, on_download, on_stream, stream_of.
  simpl. destruct (blob_class driver); reflexivity.
Qed.

(** [getStream] when the [download] call yields a promise. *)
Lemma getStream_promised :
  forall location range (w : World St),
    download_throws driver (_folder this) location (service w) = None ->
    getStream driver this location range w
    = (Returns (List.length (streams w)),
       {| service := snd (api_download (driver_api driver) (_folder this) location (service w));
          jobs := jobs w
                  ++ [{| job_promise :=
                           fst (api_download (driver_api driver) (_folder this) location
                                  (service w));
                         job_location := location;
                         job_stream := List.length (streams w) |}];
          streams := streams w ++ [fresh_stream] |}).
Proof.
  intros location range w H.
  unfold getStream, bind, new_PassThrough, try_catch, start_download, ret. simpl.
  rewrite H.
  destruct (api_download (driver_api driver) (_folder this) location (service w)) as [p s'].
  reflexivity.
Qed.

(** One turn of the event loop, on the job that settles and its stream. *)
Lemma run_job_at :
  forall n (w : World St) j st,
    nth_error (jobs w) n = Some j ->
    nth_error (streams w) (job_stream j) = Some st ->
    run_job driver this n w
    = (fst (reactions driver this (job_location j) (job_promise j) st),
       {| service := service w;
          jobs := firstn n (jobs w) ++ skipn (S n) (jobs w);
          streams := set_nth (job_stream j)
                       (snd (reactions driver this (job_location j) (job_promise j) st))
                       (streams w) |}).
Proof.
  intros n w j st Hj Hst. unfold run_job, at_stream. rewrite Hj. simpl. rewrite Hst.
  destruct (reactions driver this (job_location j) (job_promise j) st). reflexivity.
Qed.

(** The turn that settles the download [getStream] has just started, after
    the holder of the new stream has attached an ['error'] listener. *)
Lemma run_job_after_getStream :
  forall location range (w : World St),
    download_throws driver (_folder this) location (service w) = None ->
    run_job driver this (List.length (jobs w))
      (listen (List.length (streams w)) (snd (getStream driver this location range w)))
    = (fst (reactions driver this location
              (fst (api_download (driver_api driver) (_folder this) location (service w)))
              (on_error fresh_stream)),
       {| service := snd (api_download (driver_api driver) (_folder this) location (service w));
          jobs := jobs w;
          streams := streams w
                     ++ [snd (reactions driver this location
                                (fst (api_download (driver_api driver) (_folder this) location
                                        (service w)))
                                (on_error fresh_stream))] |}).
Proof.
  intros location range w H. rewrite (getStream_promised location range w H).
  unfold listen. simpl. rewrite nth_error_app_last, set_nth_last.
  rewrite (run_job_at _ _
             {| job_promise :=
                  fst (api_download (driver_api driver) (_folder this) location (service w));
                job_location := location;
                job_stream := List.length (streams w) |}
             (on_error fresh_stream)).
  - cbn [service jobs streams job_stream job_location job_promise].
    rewrite without_last, set_nth_last. reflexivity.
  - apply nth_error_app_last.
  - apply nth_error_app_last.
Qed.

End StreamFacts.

(** C8: the claim fails on the code when the [download] call throws at
    once instead of yielding a promise.  The [catch] block of [getStream]
    then emits the error on the stream it has just created, which has no
    ['error'] listener yet, so [emit] throws: [getStream] throws the error to
    its caller and returns no stream; the stream it created has received no
    event, and no download is pending. *)
Theorem getStream_throws_when_download_throws :
  forall (St : Type) (driver : Driver St) (this : SupabaseStorage)
         (location : string) (range : option Range) (w : World St) (e : JsError),
    download_throws driver (_folder this) location (service w) = Some e ->
    getStream driver this location range w
    = (Throws (Native e),
       {| service := service w;
          jobs := jobs w;
          streams := streams w ++ [{| highWaterMark := 1; error_listeners := 0; events := [] |}] |}).
Proof.
  intros St driver this location range w e H.
  unfold getStream, bind, new_PassThrough, try_catch, start_download, ret. simpl.
  rewrite H. unfold emit_error_on, at_stream. simpl.
  rewrite nth_error_app_last. simpl. rewrite set_nth_last. reflexivity.
Qed.

Lemma getStream_throws_when_download_throws_witness :
  getStream throwing_driver rootless_storage "missing.txt" None idle_world
  = (Throws (Native (NewTypeError "Cannot read properties of undefined (reading 'from')")),
     {| service := sample_bucket; jobs := []; streams := [fresh_stream] |}).
Proof.
  apply (getStream_throws_when_download_throws MemBucket.State throwing_driver
           rootless_storage "missing.txt" None idle_world).
  reflexivity.
Defined.

(** ** Paths *)

(** C5 as stated fails: with the root prefix assets, normalising the key of
    x.png prefixes the root a second time. *)
Lemma fullPath_not_idempotent_under_root :
  _fullPath assets_storage "x.png" = "assets/x.png"
  /\ _fullPath assets_storage (_fullPath assets_storage "x.png") = "assets/assets/x.png"
  /\ _fullPath assets_storage (_fullPath assets_storage "x.png")
     <> _fullPath assets_storage "x.png".
Proof.
  repeat split. vm_compute. discriminate.
Qed.

(** Without root prefix, backslashes break idempotence as well: the first
    pass turns them into slashes and the second pass resolves the [..]
    that has appeared. *)
Lemma fullPath_not_idempotent_with_backslash :
  _fullPath rootless_storage "a\..\b" = "a/../b"
  /\ _fullPath rootless_storage (_fullPath rootless_storage "a\..\b") = "b".
Proof. split; reflexivity. Qed.


(** A backslash after [..] turns into a leading slash even under a root
    prefix. *)
Lemma fullPath_backslash_leading_slash :
  _fullPath assets_storage "../\x" = "/x".
Proof. reflexivity. Qed.

(** ** Facts about paths *)

Module PathFacts.
Import Path PathShape.

(** *** Characters *)

Lemma is_sep_slash : is_sep slash = true.
Proof. reflexivity. Qed.

Lemma is_slash_eq : forall c, is_slash c = true <-> c = slash.
Proof. intro c. unfold is_slash. apply Ascii.eqb_eq. Qed.

Lemma is_backslash_eq : forall c, is_backslash c = true <-> c = backslash.
Proof. intro c. unfold is_backslash. apply Ascii.eqb_eq. Qed.

Lemma not_sep_not_slash : forall c, is_sep c = false -> is_slash c = false.
Proof. intros c H. unfold is_sep in H. apply orb_false_iff in H. tauto. Qed.

(** A character that is neither a slash nor a backslash is no separator. *)
Lemma not_sep_intro :
  forall c, is_slash c = false -> c <> backslash -> is_sep c = false.
Proof.
  intros c Hs Hb. unfold is_sep. rewrite Hs. simpl.
  destruct (is_backslash c) eqn:E; [| reflexivity].
  apply is_backslash_eq in E. contradiction.
Qed.

(** *** Splitting and joining *)

Lemma split_slash_not_nil : forall s, split_slash s <> [].
Proof.
  intros [| c s]; simpl; [discriminate |].
  destruct (is_slash c); [discriminate |].
  destruct (split_slash s); discriminate.
Qed.

Lemma join_slash_cons :
  forall seg rest, rest <> [] -> join_slash (seg :: rest) = seg ++ slash :: join_slash rest.
Proof. intros seg [| x rest] H; [contradiction | reflexivity]. Qed.

Lemma join_slash_cons_char :
  forall c seg rest, join_slash ((c :: seg) :: rest) = c :: join_slash (seg :: rest).
Proof. intros c seg [| x rest]; reflexivity. Qed.

Lemma join_split : forall s, join_slash (split_slash s) = s.
Proof.
  induction s as [| c s IH]; [reflexivity |].
  cbn [split_slash]. destruct (is_slash c) eqn:E.
  - apply is_slash_eq in E. subst c.
    rewrite join_slash_cons by apply split_slash_not_nil.
    simpl. now rewrite IH.
  - pose proof (split_slash_not_nil s) as Hn.
    destruct (split_slash s) as [| seg rest]; [contradiction |].
    rewrite join_slash_cons_char. now rewrite IH.
Qed.

(** The characters of the segments are characters of the path. *)
Lemma split_slash_chars :
  forall s seg c, In seg (split_slash s) -> In c seg -> In c s.
Proof.
  induction s as [| a s IH]; intros seg c Hseg Hc; simpl in *.
  - destruct Hseg as [<- | []]. destruct Hc.
  - destruct (is_slash a).
    + destruct Hseg as [<- | Hseg]; [destruct Hc |].
      right. eapply IH; eauto.
    + destruct (split_slash s) as [| seg0 rest] eqn:E.
      * destruct Hseg as [<- | []]. destruct Hc as [<- | []]. now left.
      * destruct Hseg as [<- | Hseg].
        -- destruct Hc as [<- | Hc]; [now left |].
           right. apply (IH seg0 c); [now left | assumption].
        -- right. apply (IH seg c); [now right | assumption].
Qed.

Lemma split_slash_no_slash :
  forall s seg, In seg (split_slash s) -> ~ In slash seg.
Proof.
  induction s as [| a s IH]; intros seg Hseg; simpl in *.
  - destruct Hseg as [<- | []]. intros [].
  - destruct (is_slash a) eqn:Ea.
    + destruct Hseg as [<- | Hseg]; [intros [] | now apply IH].
    + destruct (split_slash s) as [| seg0 rest] eqn:E.
      * destruct Hseg as [<- | []]. intros [-> | []]. discriminate.
      * destruct Hseg as [<- | Hseg].
        -- intros [-> | Hin]; [discriminate |].
           apply (IH seg0); [now left | assumption].
        -- apply IH. now right.
Qed.

(** A path without slash is one segment. *)
Lemma split_slash_one :
  forall seg, ~ In slash seg -> split_slash seg = [seg].
Proof.
  induction seg as [| c seg IH]; intros H; [reflexivity |].
  simpl. destruct (is_slash c) eqn:E.
  - apply is_slash_eq in E. subst c. exfalso. apply H. now left.
  - rewrite IH; [reflexivity |]. intros Hin. apply H. now right.
Qed.

Lemma split_slash_app :
  forall seg t, ~ In slash seg -> split_slash (seg ++ slash :: t) = seg :: split_slash t.
Proof.
  induction seg as [| c seg IH]; intros t H; [reflexivity |].
  simpl. destruct (is_slash c) eqn:E.
  - apply is_slash_eq in E. subst c. exfalso. apply H. now left.
  - rewrite IH; [reflexivity |]. intros Hin. apply H. now right.
Qed.

Lemma split_join :
  forall segs,
    segs <> [] -> (forall seg, In seg segs -> ~ In slash seg) ->
    split_slash (join_slash segs) = segs.
Proof.
  induction segs as [| seg rest IH]; intros Hn H; [contradiction |].
  destruct rest as [| seg' rest].
  - simpl. apply split_slash_one. apply H. now left.
  - rewrite join_slash_cons by discriminate.
    rewrite split_slash_app by (apply H; now left).
    rewrite IH; [reflexivity | discriminate |].
    intros s Hs. apply H. now right.
Qed.


(** *** The segments [normalizeString] keeps *)

Lemma dotdot_not_empty : forall seg, is_dotdot seg = true -> seg <> [].
Proof. intros [| c seg] H; [discriminate H | discriminate]. Qed.

Lemma proper_not_empty : forall seg, proper seg = true -> seg <> [].
Proof. intros [| c seg] H; [discriminate H | discriminate]. Qed.

Lemma proper_not_dotdot : forall seg, proper seg = true -> is_dotdot seg = false.
Proof.
  intros seg H. unfold proper in H. apply negb_true_iff in H.
  apply orb_false_iff in H. tauto.
Qed.

Lemma normalize_step_normal :
  forall allow stack seg,
    normal_stack allow stack = true ->
    normal_stack allow (normalize_step allow stack seg) = true.
Proof.
  intros allow stack seg H. unfold normalize_step.
  destruct (is_empty seg || is_dot seg) eqn:E1; [assumption |].
  destruct (is_dotdot seg) eqn:E2.
  - destruct stack as [| top rest].
    + destruct allow; simpl; [now rewrite E2 | reflexivity].
    + simpl in H. destruct (is_dotdot top) eqn:E3.
      * apply andb_true_iff in H. destruct H as [Ha Hr]. subst allow.
        simpl. now rewrite E2, E3, Hr.
      * apply andb_true_iff in H. tauto.
  - simpl. rewrite E2. unfold proper. rewrite E1, E2. simpl. assumption.
Qed.

Lemma fold_normalize_normal :
  forall allow segs stack,
    normal_stack allow stack = true ->
    normal_stack allow (fold_left (normalize_step allow) segs stack) = true.
Proof.
  induction segs as [| seg segs IH]; intros stack H; [assumption |].
  simpl. apply IH. now apply normalize_step_normal.
Qed.

Lemma normalize_segments_normal :
  forall allow segs, normal_stack allow (rev (normalize_segments allow segs)) = true.
Proof.
  intros allow segs. unfold normalize_segments. rewrite rev_involutive.
  now apply fold_normalize_normal.
Qed.

Lemma normalize_step_incl :
  forall allow stack seg x,
    In x (normalize_step allow stack seg) -> In x stack \/ x = seg.
Proof.
  intros allow stack seg x. unfold normalize_step.
  destruct (is_empty seg || is_dot seg); [tauto |].
  destruct (is_dotdot seg).
  - destruct stack as [| top rest].
    + destruct allow; simpl; intuition.
    + destruct (is_dotdot top); [destruct allow |]; simpl; intuition.
  - simpl. intuition.
Qed.

Lemma fold_normalize_incl :
  forall allow segs stack x,
    In x (fold_left (normalize_step allow) segs stack) -> In x stack \/ In x segs.
Proof.
  induction segs as [| seg segs IH]; intros stack x H; [now left |].
  simpl in H. apply IH in H. destruct H as [H | H]; [| right; now right].
  apply normalize_step_incl in H. destruct H as [H | ->]; [now left | right; now left].
Qed.

Lemma normalize_segments_incl :
  forall allow segs x, In x (normalize_segments allow segs) -> In x segs.
Proof.
  intros allow segs x H. unfold normalize_segments in H. apply in_rev in H.
  apply fold_normalize_incl in H. destruct H as [[] | H]. assumption.
Qed.

Lemma normal_stack_not_empty :
  forall allow stack seg, normal_stack allow stack = true -> In seg stack -> seg <> [].
Proof.
  induction stack as [| top rest IH]; intros seg H Hin; [destruct Hin |].
  simpl in H. destruct (is_dotdot top) eqn:E.
  - apply andb_true_iff in H. destruct H as [_ H].
    rewrite forallb_forall in H.
    destruct Hin as [<- | Hin]; apply dotdot_not_empty; auto.
  - apply andb_true_iff in H. destruct H as [Hp Hr].
    destruct Hin as [<- | Hin]; [now apply proper_not_empty | now apply IH].
Qed.

Lemma normal_stack_tail :
  forall allow top rest,
    normal_stack allow (top :: rest) = true -> normal_stack allow rest = true.
Proof.
  intros allow top rest H. simpl in H. destruct (is_dotdot top).
  - apply andb_true_iff in H. destruct H as [-> H].
    clear top. induction rest as [| x rest IH]; [reflexivity |].
    simpl in *. apply andb_true_iff in H. destruct H as [-> H]. now rewrite H.
  - apply andb_true_iff in H. tauto.
Qed.

(** A normal result is what [normalizeString] makes of its own segments. *)
Lemma normalize_step_push :
  forall allow top rest,
    normal_stack allow (top :: rest) = true ->
    normalize_step allow rest top = top :: rest.
Proof.
  intros allow top rest H. unfold normalize_step. simpl in H.
  destruct (is_dotdot top) eqn:E.
  - apply andb_true_iff in H. destruct H as [-> H].
    assert (E1 : is_empty top || is_dot top = false).
    { destruct top as [| c1 [| c2 [| c3 top]]]; try discriminate E; reflexivity. }
    rewrite E1. destruct rest as [| x rest]; [reflexivity |].
    simpl in H. apply andb_true_iff in H. destruct H as [-> _]. reflexivity.
  - apply andb_true_iff in H. destruct H as [Hp _].
    unfold proper in Hp. apply negb_true_iff in Hp.
    apply orb_false_iff in Hp. destruct Hp as [-> _]. reflexivity.
Qed.

Lemma fold_normalize_fixed :
  forall allow stack,
    normal_stack allow stack = true ->
    fold_left (normalize_step allow) (rev stack) [] = stack.
Proof.
  induction stack as [| top rest IH]; intros H; [reflexivity |].
  simpl. rewrite fold_left_app. simpl.
  rewrite IH by (eapply normal_stack_tail; eassumption).
  now apply normalize_step_push.
Qed.

Lemma normalize_segments_fixed :
  forall allow segs,
    normal_stack allow (rev segs) = true ->
    normalize_segments allow segs = segs.
Proof.
  intros allow segs H. unfold normalize_segments.
  rewrite <- (rev_involutive segs) at 1.
  rewrite fold_normalize_fixed by assumption. apply rev_involutive.
Qed.



(** *** The loop of [normalizeString] and the segments of the path *)

Lemma len_app : forall a b, len (a ++ b) = (len a + len b)%Z.
Proof. intros a b. unfold len. rewrite length_app. lia. Qed.

Lemma len_cons : forall c s, len (c :: s) = (1 + len s)%Z.
Proof. intros c s. unfold len. simpl List.length. lia. Qed.

Lemma len_nonneg : forall s, (0 <= len s)%Z.
Proof. intro s. unfold len. lia. Qed.

Lemma len_zero : forall s, len s = 0%Z -> s = [].
Proof. intros [| c s] H; [reflexivity |]. rewrite len_cons in H. pose proof (len_nonneg s). lia. Qed.

Lemma lastIndexOf_absent :
  forall s c, ~ In c s -> lastIndexOf s c = (-1)%Z.
Proof.
  induction s as [| x s IH]; intros c H; [reflexivity |].
  simpl. rewrite IH by (intros Hin; apply H; now right). simpl.
  destruct (Ascii.eqb x c) eqn:E; [| reflexivity].
  apply Ascii.eqb_eq in E. subst x. exfalso. apply H. now left.
Qed.

Lemma lastIndexOf_last :
  forall a c t, ~ In c t -> lastIndexOf (a ++ c :: t) c = len a.
Proof.
  induction a as [| x a IH]; intros c t H.
  - simpl. rewrite lastIndexOf_absent by assumption. simpl.
    now rewrite Ascii.eqb_refl.
  - simpl. rewrite IH by assumption.
    pose proof (len_nonneg a) as Hn.
    destruct (0 <=? len a)%Z eqn:E; [rewrite len_cons; lia |].
    apply Z.leb_gt in E. lia.
Qed.

Lemma slice_prefix : forall a b, slice (a ++ b) 0 (len a) = a.
Proof.
  intros a b. unfold slice, len. simpl.
  rewrite Z.sub_0_r, Nat2Z.id.
  rewrite firstn_app, Nat.sub_diag, firstn_all. simpl. apply app_nil_r.
Qed.

Lemma slice_middle :
  forall a b c, slice (a ++ b ++ c) (len a) (len a + len b) = b.
Proof.
  intros a b c. unfold slice, len.
  replace (Z.of_nat (List.length a) + Z.of_nat (List.length b) - Z.of_nat (List.length a))%Z
    with (Z.of_nat (List.length b)) by lia.
  rewrite !Nat2Z.id. rewrite skipn_app, skipn_all, Nat.sub_diag. simpl.
  rewrite firstn_app, Nat.sub_diag, firstn_all. simpl. apply app_nil_r.
Qed.

Lemma char_is_app :
  forall a b k c,
    (0 <= k)%Z -> char_is (a ++ b) (len a + k) c = char_is b k c.
Proof.
  intros a b k c Hk. unfold char_is, len.
  replace (Z.to_nat (Z.of_nat (List.length a) + k)) with (List.length a + Z.to_nat k)%nat by lia.
  rewrite nth_error_app2 by lia.
  replace (List.length a + Z.to_nat k - List.length a)%nat with (Z.to_nat k) by lia.
  destruct (nth_error b (Z.to_nat k)); [| reflexivity].
  replace (0 <=? Z.of_nat (List.length a) + k)%Z with true by (symmetry; apply Z.leb_le; lia).
  replace (0 <=? k)%Z with true by (symmetry; apply Z.leb_le; lia).
  reflexivity.
Qed.

Lemma dots_of_snoc :
  forall cur c,
    dots_of (cur ++ [c])
    = if Ascii.eqb c dot && negb (dots_of cur =? -1)%Z
      then (dots_of cur + 1)%Z else (-1)%Z.
Proof.
  intros cur c. unfold dots_of. rewrite forallb_app. simpl.
  pose proof (len_nonneg cur) as Hn.
  destruct (forallb (fun c0 => Ascii.eqb c0 dot) cur); simpl.
  - destruct (Ascii.eqb c dot); simpl.
    + replace (len cur =? -1)%Z with false by (symmetry; apply Z.eqb_neq; lia).
      simpl. rewrite len_app. unfold len at 2. simpl. lia.
    + reflexivity.
  - rewrite andb_false_r. reflexivity.
Qed.

Lemma dots_of_is_dot : forall cur, (dots_of cur =? 1)%Z = is_dot cur.
Proof.
  intros [| a [| b cur]]; [reflexivity | |].
  - unfold dots_of. simpl. destruct (Ascii.eqb a dot); reflexivity.
  - unfold dots_of. simpl is_dot.
    destruct (forallb _ _); [| reflexivity].
    rewrite !len_cons. pose proof (len_nonneg cur). apply Z.eqb_neq. lia.
Qed.

Lemma dots_of_is_dotdot : forall cur, (dots_of cur =? 2)%Z = is_dotdot cur.
Proof.
  intros [| a [| b [| c cur]]]; [reflexivity | | |].
  - unfold dots_of. simpl. destruct (Ascii.eqb a dot); reflexivity.
  - unfold dots_of. simpl. destruct (Ascii.eqb a dot), (Ascii.eqb b dot); reflexivity.
  - unfold dots_of. simpl is_dotdot.
    destruct (forallb _ _); [| reflexivity].
    rewrite !len_cons. pose proof (len_nonneg cur). apply Z.eqb_neq. lia.
Qed.

Lemma len_is_empty : forall cur, (len cur =? 0)%Z = is_empty cur.
Proof.
  intros [| a cur]; [reflexivity |].
  rewrite len_cons. pose proof (len_nonneg cur). apply Z.eqb_neq. lia.
Qed.

Lemma join_slash_snoc :
  forall l x,
    join_slash (l ++ [x])
    = match l with [] => x | _ :: _ => join_slash l ++ slash :: x end.
Proof.
  induction l as [| a l IH]; intros x; [reflexivity |].
  destruct l as [| b l].
  - reflexivity.
  - change ((a :: b :: l) ++ [x]) with (a :: ((b :: l) ++ [x])).
    rewrite join_slash_cons by (simpl; discriminate).
    rewrite IH. rewrite (join_slash_cons a (b :: l)) by discriminate.
    rewrite <- app_assoc. reflexivity.
Qed.

Lemma join_rev_stack :
  forall top rest,
    join_slash (rev (top :: rest))
    = match rest with
      | [] => top
      | _ :: _ => join_slash (rev rest) ++ slash :: top
      end.
Proof.
  intros top rest. simpl rev. rewrite join_slash_snoc.
  destruct rest as [| x rest]; [reflexivity |].
  destruct (rev (x :: rest)) eqn:E; [| reflexivity].
  apply (f_equal (@List.length _)) in E. rewrite length_rev in E. discriminate E.
Qed.

Lemma len_join_stack :
  forall stack,
    (forall seg, In seg stack -> seg <> []) ->
    stack <> [] -> (0 < len (join_slash (rev stack)))%Z.
Proof.
  intros [| top rest] Hne Hn; [contradiction |].
  rewrite join_rev_stack.
  assert (Ht : (0 < len top)%Z).
  { pose proof (len_nonneg top). destruct (Z.eq_dec (len top) 0) as [E | E]; [| lia].
    apply len_zero in E. exfalso. apply (Hne top); [now left | assumption]. }
  destruct rest; [assumption |].
  rewrite len_app, len_cons. pose proof (len_nonneg (join_slash (rev (l :: rest)))). lia.
Qed.


Lemma is_dotdot_eq : forall seg, is_dotdot seg = true -> seg = [dot; dot].
Proof.
  intros [| a [| b [| c seg]]] H; try discriminate H.
  simpl in H. apply andb_true_iff in H. destruct H as [Ha Hb].
  apply Ascii.eqb_eq in Ha, Hb. now subst.
Qed.

(** The test [res.length < 2 || lastSegmentLength !== 2 || ...] of the loop
    asks whether the last segment of the result is not [..]. *)
Lemma last_segment_test :
  forall a top,
    top <> [] ->
    (len (a ++ top) <? 2)%Z || negb (len top =? 2)%Z
    || negb (char_is (a ++ top) (len (a ++ top) - 1) dot)
    || negb (char_is (a ++ top) (len (a ++ top) - 2) dot)
    = negb (is_dotdot top).
Proof.
  intros a top Hne.
  destruct top as [| x [| y [| z top]]]; [contradiction | | |].
  - simpl is_dotdot. simpl negb at 4.
    replace (len [x] =? 2)%Z with false by reflexivity.
    simpl. now rewrite orb_true_r.
  - pose proof (len_nonneg a) as Hn.
    rewrite len_app.
    replace (len [x; y]) with 2%Z by reflexivity.
    replace (len a + 2 <? 2)%Z with false by (symmetry; apply Z.ltb_ge; lia).
    replace (len a + 2 - 1)%Z with (len a + 1)%Z by lia.
    replace (len a + 2 - 2)%Z with (len a + 0)%Z by lia.
    rewrite !char_is_app by lia.
    unfold char_is. simpl.
    destruct (Ascii.eqb x dot), (Ascii.eqb y dot); reflexivity.
  - simpl is_dotdot. simpl negb at 4.
    replace (len (x :: y :: z :: top) =? 2)%Z with false.
    + simpl. now rewrite orb_true_r.
    + symmetry. apply Z.eqb_neq. rewrite !len_cons. pose proof (len_nonneg top). lia.
Qed.

(** [res.length - 1 - res.lastIndexOf('/')] is the length of the last
    segment of the result. *)
Lemma last_segment_length :
  forall stack,
    (forall seg, In seg stack -> ~ In slash seg) ->
    (len (join_slash (rev stack)) - 1 - lastIndexOf (join_slash (rev stack)) slash)%Z
    = len (hd [] stack).
Proof.
  intros [| top rest] H; [reflexivity |].
  rewrite join_rev_stack. simpl hd.
  assert (Ht : ~ In slash top) by (apply H; now left).
  destruct rest as [| x rest].
  - rewrite lastIndexOf_absent by assumption. lia.
  - rewrite lastIndexOf_last by assumption. rewrite len_app, len_cons. lia.
Qed.

(** At a separator the loop does to its variables what [normalize_step]
    does to the segments. *)
Lemma at_separator_step :
  forall path allow i st stack cur,
    normal_stack allow stack = true ->
    (forall seg, In seg stack -> ~ In slash seg) ->
    res st = join_slash (rev stack) ->
    lastSegmentLength st = len (hd [] stack) ->
    lastSlash st = (i - len cur - 1)%Z ->
    dots st = dots_of cur ->
    slice path (lastSlash st + 1) i = cur ->
    at_separator path allow i st
    = next_segment (join_slash (rev (normalize_step allow stack cur)))
                   (len (hd [] (normalize_step allow stack cur))) i.
Proof.
  intros path allow i st stack cur Hnormal Hfree Hres Hlen Hlast Hdots Hslice.
  unfold at_separator, normalize_step.
  assert (Hempty : (lastSlash st =? i - 1)%Z = is_empty cur).
  { rewrite Hlast, <- len_is_empty.
    pose proof (len_nonneg cur).
    destruct (len cur =? 0)%Z eqn:E.
    - apply Z.eqb_eq in E. apply Z.eqb_eq. lia.
    - apply Z.eqb_neq in E. apply Z.eqb_neq. lia. }
  rewrite Hempty, Hdots, dots_of_is_dot, dots_of_is_dotdot.
  destruct (is_empty cur || is_dot cur) eqn:E1.
  { now rewrite Hres, Hlen. }
  destruct (is_dotdot cur) eqn:E2.
  - (* the segment is [..] *)
    clear Hslice. apply is_dotdot_eq in E2. subst cur.
    destruct stack as [| top rest].
    + rewrite Hres. simpl. unfold above_root. rewrite Hres, Hlen.
      destruct allow; reflexivity.
    + assert (Htop : top <> []).
      { apply (normal_stack_not_empty allow (top :: rest)); [assumption | now left]. }
      assert (Hpos : (0 < len (join_slash (rev (top :: rest))))%Z).
      { apply len_join_stack; [| discriminate].
        intros seg Hseg. now apply (normal_stack_not_empty allow (top :: rest)). }
      assert (Hsplit : exists a, join_slash (rev (top :: rest)) = a ++ top).
      { rewrite join_rev_stack. destruct rest.
        - now exists [].
        - exists (join_slash (rev (l :: rest)) ++ [slash]).
          rewrite <- app_assoc. reflexivity. }
      destruct Hsplit as [a Ha].
      rewrite Hlen, Hres. cbn [hd].
      rewrite Ha at 1 2 3 4 5. rewrite last_segment_test by assumption.
      destruct (is_dotdot top) eqn:E3; cbn [negb]; cbv iota.
      * unfold above_root. rewrite Hres, Hlen.
        destruct allow; [| reflexivity].
        replace (0 <? len (join_slash (rev (top :: rest))))%Z with true
          by (symmetry; apply Z.ltb_lt; lia).
        rewrite (join_rev_stack [dot; dot] (top :: rest)). reflexivity.
      * destruct (2 <? len (join_slash (rev (top :: rest))))%Z eqn:E4.
        -- rewrite join_rev_stack.
           assert (Ht : ~ In slash top) by (apply Hfree; now left).
           destruct rest as [| x rest].
           ++ rewrite lastIndexOf_absent by assumption. reflexivity.
           ++ rewrite lastIndexOf_last by assumption.
              pose proof (len_nonneg (join_slash (rev (x :: rest)))) as Hn.
              replace (len (join_slash (rev (x :: rest))) =? -1)%Z with false
                by (symmetry; apply Z.eqb_neq; lia).
              rewrite slice_prefix.
              rewrite last_segment_length; [reflexivity |].
              intros seg Hseg. apply Hfree. now right.
        -- replace (len (join_slash (rev (top :: rest))) =? 0)%Z with false
             by (symmetry; apply Z.eqb_neq; lia).
           cbn [negb]. cbv iota.
           destruct rest as [| x rest]; [reflexivity |].
           exfalso. apply Z.ltb_ge in E4.
           rewrite join_rev_stack, len_app, len_cons in E4.
           assert (Hx : (0 < len (join_slash (rev (x :: rest))))%Z).
           { apply len_join_stack; [| discriminate].
             intros seg Hseg. apply (normal_stack_not_empty allow (top :: x :: rest));
               [assumption | now right]. }
           assert (Ht : (0 < len top)%Z).
           { pose proof (len_nonneg top).
             destruct (Z.eq_dec (len top) 0) as [E | E]; [| lia].
             apply len_zero in E. contradiction. }
           lia.
  - (* any other segment *)
    rewrite Hslice.
    replace (i - lastSlash st - 1)%Z with (len cur) by lia.
    rewrite Hres. cbn [hd].
    destruct stack as [| top rest]; [reflexivity |].
    replace (0 <? len (join_slash (rev (top :: rest))))%Z with true.
    + now rewrite (join_rev_stack cur (top :: rest)).
    + symmetry. apply Z.ltb_lt. apply len_join_stack; [| discriminate].
      intros seg Hseg. now apply (normal_stack_not_empty allow (top :: rest)).
Qed.


Lemma split_slash_app_slash :
  forall r l, split_slash (r ++ slash :: l) = split_slash r ++ split_slash l.
Proof.
  induction r as [| c r IH]; intros l; [reflexivity |].
  simpl. destruct (is_slash c).
  - now rewrite IH.
  - rewrite IH. pose proof (split_slash_not_nil r) as Hn.
    destruct (split_slash r); [contradiction | reflexivity].
Qed.

Lemma split_slash_snoc :
  forall pre c,
    is_slash c = false ->
    split_slash (pre ++ [c])
    = removelast (split_slash pre) ++ [last (split_slash pre) [] ++ [c]].
Proof.
  induction pre as [| x pre IH]; intros c Hc.
  - simpl. now rewrite Hc.
  - simpl app. cbn [split_slash]. rewrite (IH c Hc).
    pose proof (split_slash_not_nil pre) as Hn.
    destruct (split_slash pre) as [| s0 [| s1 segs]]; [contradiction | |];
      destruct (is_slash x); reflexivity.
Qed.

Lemma split_slash_last_suffix :
  forall pre done cur,
    split_slash pre = done ++ [cur] -> exists pre0, pre = pre0 ++ cur.
Proof.
  intros pre done cur H.
  rewrite <- (join_split pre), H, join_slash_snoc.
  destruct done as [| d done].
  - now exists [].
  - exists (join_slash (d :: done) ++ [slash]). now rewrite <- app_assoc.
Qed.

(** The loop, started in the middle of the path: [pre] has been read,
    [done] are its complete segments and [cur] the characters read since
    the last slash. *)
Lemma scan_segments :
  forall path allow rest pre done cur code st,
    path = pre ++ rest ->
    split_slash pre = done ++ [cur] ->
    res st = join_slash (rev (fold_left (normalize_step allow) done [])) ->
    lastSegmentLength st = len (hd [] (fold_left (normalize_step allow) done [])) ->
    lastSlash st = (len pre - len cur - 1)%Z ->
    dots st = dots_of cur ->
    (is_slash code = true -> cur = []) ->
    scan path allow rest (len pre) code st
    = join_slash (normalize_segments allow (split_slash path)).
Proof.
  intros path allow rest.
  induction rest as [| c rest IH];
    intros pre done cur code st Hpath Hsplit Hres Hlen Hlast Hdots Hcode.
  - (* the end of the path *)
    rewrite app_nil_r in Hpath. subst pre.
    unfold normalize_segments. rewrite Hsplit, fold_left_app.
    cbn [scan fold_left].
    destruct (is_slash code) eqn:Ec.
    + rewrite (Hcode eq_refl). exact Hres.
    + unfold scan_char. replace (is_slash slash) with true by reflexivity.
      destruct (split_slash_last_suffix _ _ _ Hsplit) as [pre0 Hpre].
      rewrite (at_separator_step path allow (len path) st
                 (fold_left (normalize_step allow) done []) cur).
      * reflexivity.
      * now apply fold_normalize_normal.
      * intros seg Hseg. apply fold_normalize_incl in Hseg.
        destruct Hseg as [[] | Hseg].
        apply (split_slash_no_slash path). rewrite Hsplit.
        apply in_or_app. now left.
      * exact Hres.
      * exact Hlen.
      * exact Hlast.
      * exact Hdots.
      * rewrite Hlast. rewrite Hpre.
        rewrite len_app.
        replace (len pre0 + len cur - len cur - 1 + 1)%Z with (len pre0) by lia.
        rewrite <- (app_nil_r cur) at 1. apply slice_middle.
  - (* one more character *)
    assert (Hnext : (len pre + 1)%Z = len (pre ++ [c])).
    { rewrite len_app. reflexivity. }
    cbn [scan]. rewrite Hnext.
    assert (Hpath' : path = (pre ++ [c]) ++ rest).
    { rewrite <- app_assoc. exact Hpath. }
    destruct (is_slash c) eqn:Ec.
    + (* a slash: the segment [cur] is complete *)
      pose proof Ec as Hc. apply is_slash_eq in Hc. subst c.
      destruct (split_slash_last_suffix _ _ _ Hsplit) as [pre0 Hpre].
      assert (Hstep :
                scan_char path allow (len pre) slash st
                = next_segment
                    (join_slash (rev (fold_left (normalize_step allow) (done ++ [cur]) [])))
                    (len (hd [] (fold_left (normalize_step allow) (done ++ [cur]) [])))
                    (len pre)).
      { unfold scan_char. rewrite Ec, fold_left_app. cbn [fold_left].
        apply at_separator_step; try assumption.
        - now apply fold_normalize_normal.
        - intros seg Hseg. apply fold_normalize_incl in Hseg.
          destruct Hseg as [[] | Hseg].
          apply (split_slash_no_slash pre). rewrite Hsplit.
          apply in_or_app. now left.
        - rewrite Hlast, Hpath. rewrite Hpre.
          rewrite len_app.
          replace (len pre0 + len cur - len cur - 1 + 1)%Z with (len pre0) by lia.
          rewrite <- app_assoc. apply slice_middle. }
      rewrite Hstep.
      apply (IH (pre ++ [slash]) (done ++ [cur]) []).
      * exact Hpath'.
      * rewrite split_slash_app_slash, Hsplit. reflexivity.
      * reflexivity.
      * reflexivity.
      * cbn [lastSlash next_segment]. rewrite len_app.
        replace (len [slash]) with 1%Z by reflexivity.
        replace (len (@nil ascii)) with 0%Z by reflexivity. lia.
      * reflexivity.
      * reflexivity.
    + (* another character of the segment [cur] *)
      apply (IH (pre ++ [c]) done (cur ++ [c])).
      * exact Hpath'.
      * rewrite (split_slash_snoc pre c Ec), Hsplit.
        now rewrite removelast_last, last_last.
      * unfold scan_char. rewrite Ec.
        destruct (Ascii.eqb c dot && negb (dots st =? -1)%Z); exact Hres.
      * unfold scan_char. rewrite Ec.
        destruct (Ascii.eqb c dot && negb (dots st =? -1)%Z); exact Hlen.
      * unfold scan_char. rewrite Ec.
        assert (Hl : lastSlash st = (len (pre ++ [c]) - len (cur ++ [c]) - 1)%Z).
        { rewrite !len_app. lia. }
        destruct (Ascii.eqb c dot && negb (dots st =? -1)%Z); exact Hl.
      * unfold scan_char. rewrite Ec, dots_of_snoc, <- Hdots.
        destruct (Ascii.eqb c dot && negb (dots st =? -1)%Z); reflexivity.
      * intros Hc. rewrite Hc in Ec. discriminate Ec.
Qed.

(** Node's [normalizeString] resolves the segments of the path the way
    [normalize_step] says. *)
Lemma normalizeString_segments :
  forall path allow,
    normalizeString path allow
    = join_slash (normalize_segments allow (split_slash path)).
Proof.
  intros path allow. unfold normalizeString.
  apply (scan_segments path allow path [] [] []); reflexivity.
Qed.

(** *** [normalize-path] on a path that is already a key *)

Lemma win32_namespace_needs_backslash :
  forall path, ~ In backslash path -> win32_namespace path = false.
Proof.
  intros path H.
  destruct path as [| c0 [| c1 [| c2 [| c3 [| c4 path]]]]]; try reflexivity.
  simpl. destruct (is_backslash c3) eqn:E; [| reflexivity].
  apply is_backslash_eq in E. subst c3. exfalso. apply H. simpl. tauto.
Qed.

Lemma split_seps_from_piece :
  forall seg t b,
    piece seg ->
    split_seps_from b (seg ++ t)
    = match split_seps_from false t with
      | h :: r => (seg ++ h) :: r
      | [] => [seg]
      end.
Proof.
  induction seg as [| c seg IH]; intros t b [Hn Hs]; [contradiction |].
  assert (Hc : is_sep c = false) by (apply Hs; now left).
  simpl. rewrite Hc.
  destruct seg as [| c' seg].
  - simpl. destruct (split_seps_from false t); reflexivity.
  - rewrite IH.
    + destruct (split_seps_from false t); reflexivity.
    + split; [discriminate |]. intros x Hx. apply Hs. now right.
Qed.

Lemma split_seps_from_slash :
  forall t, split_seps_from false (slash :: t) = [] :: split_seps_from true t.
Proof. reflexivity. Qed.

Lemma split_seps_from_join :
  forall segs b,
    segs <> [] -> Forall piece segs ->
    split_seps_from b (join_slash segs) = segs
    /\ split_seps_from b (join_slash segs ++ [slash]) = segs ++ [[]].
Proof.
  induction segs as [| seg rest IH]; intros b Hn H; [contradiction |].
  inversion H as [| ? ? Hseg Hrest]; subst.
  destruct rest as [| seg' rest].
  - simpl. split.
    + rewrite <- (app_nil_r seg) at 1.
      rewrite split_seps_from_piece by assumption. simpl. now rewrite app_nil_r.
    + rewrite split_seps_from_piece by assumption. simpl. now rewrite app_nil_r.
  - rewrite join_slash_cons by discriminate.
    destruct (IH true ltac:(discriminate) Hrest) as [IH1 IH2].
    split.
    + rewrite split_seps_from_piece by assumption.
      rewrite split_seps_from_slash, IH1. now rewrite app_nil_r.
    + rewrite <- app_assoc. rewrite split_seps_from_piece by assumption.
      rewrite <- app_comm_cons.
      rewrite split_seps_from_slash, IH2. now rewrite app_nil_r.
Qed.

Lemma join_slash_chars :
  forall segs c,
    In c (join_slash segs) -> c = slash \/ exists seg, In seg segs /\ In c seg.
Proof.
  induction segs as [| seg rest IH]; intros c H; [destruct H |].
  destruct rest as [| seg' rest].
  - right. exists seg. split; [now left | assumption].
  - rewrite join_slash_cons in H by discriminate.
    apply in_app_or in H. destruct H as [H | [H | H]].
    + right. exists seg. split; [now left | assumption].
    + now left.
    + apply IH in H. destruct H as [H | [s [Hs Hc]]]; [now left |].
      right. exists s. split; [now right | assumption].
Qed.

Lemma join_slash_not_nil :
  forall segs, segs <> [] -> Forall piece segs -> join_slash segs <> [].
Proof.
  intros [| seg rest] Hn H; [contradiction |].
  inversion H as [| ? ? [Hseg _] _]; subst.
  destruct rest; simpl; [assumption |].
  destruct seg; [contradiction | discriminate].
Qed.

Lemma pieces_no_backslash :
  forall segs, Forall piece segs -> ~ In backslash (join_slash segs).
Proof.
  intros segs H Hin. apply join_slash_chars in Hin.
  destruct Hin as [Hin | [seg [Hseg Hc]]]; [discriminate Hin |].
  rewrite Forall_forall in H. destruct (H seg Hseg) as [_ Hs].
  specialize (Hs _ Hc). discriminate Hs.
Qed.

Lemma last_in_pieces :
  forall segs d, segs <> [] -> Forall piece segs -> is_empty (last segs d) = false.
Proof.
  intros segs d Hn H.
  assert (Hin : In (last segs d) segs).
  { clear H. induction segs as [| x segs IH]; [contradiction |].
    destruct segs as [| y segs]; [now left |].
    right. apply IH. discriminate. }
  rewrite Forall_forall in H. destruct (H _ Hin) as [Hne _].
  destruct (last segs d); [contradiction | reflexivity].
Qed.

Lemma starts_with_slash_join :
  forall segs, Forall piece segs -> starts_with_slash (join_slash segs) = false.
Proof.
  intros [| seg rest] H; [reflexivity |].
  inversion H as [| ? ? [Hne Hs] _]; subst.
  destruct seg as [| c seg]; [contradiction |].
  assert (Hc : is_sep c = false) by (apply Hs; now left).
  apply not_sep_not_slash in Hc.
  destruct rest; simpl; assumption.
Qed.

(** [normalize-path] strips the trailing slash of a key and changes nothing
    else. *)
Lemma normalize_path_key :
  forall (isAbsolute trailing : bool) segs,
    segs <> [] -> Forall piece segs ->
    normalize_path ((if isAbsolute then [slash] else [])
                    ++ join_slash segs
                    ++ (if trailing then [slash] else []))
    = render isAbsolute segs.
Proof.
  intros isAbsolute trailing segs Hn H.
  pose proof (join_slash_not_nil segs Hn H) as Hj.
  pose proof (pieces_no_backslash segs H) as Hb.
  pose proof (last_in_pieces segs [dot] Hn H) as Hl.
  assert (Hr : render isAbsolute segs
               = if isAbsolute then slash :: join_slash segs else join_slash segs).
  { destruct segs; [contradiction | reflexivity]. }
  rewrite Hr. clear Hr.
  assert (Hlen : (1 <= List.length (join_slash segs))%nat).
  { destruct (join_slash segs); [contradiction | simpl; lia]. }
  assert (Hlong : forall p,
             (2 <= List.length p)%nat -> ~ In backslash p ->
             normalize_path p
             = join_slash (if is_empty (last (split_seps p) [dot])
                           then removelast (split_seps p)
                           else split_seps p)).
  { intros p Hp Hq. destruct p as [| c0 [| c1 q]]; simpl in Hp; try lia.
    unfold normalize_path.
    rewrite (win32_namespace_needs_backslash _ Hq). reflexivity. }
  destruct (split_seps_from_join segs false Hn H) as [S1 S2].
  destruct (split_seps_from_join segs true Hn H) as [T1 T2].
  destruct isAbsolute, trailing; simpl app.
  - (* /a/b/ *)
    rewrite Hlong.
    + unfold split_seps. rewrite split_seps_from_slash, T2.
      change ([] :: segs ++ [[]]) with (([] :: segs) ++ [[]]).
      rewrite last_last, removelast_last. simpl is_empty. cbv iota.
      now rewrite join_slash_cons by assumption.
    + simpl. rewrite length_app. simpl. lia.
    + intros [Hx | Hx]; [discriminate Hx |].
      apply in_app_or in Hx. destruct Hx as [Hx | [Hx | []]]; [auto | discriminate Hx].
  - (* /a/b *)
    rewrite app_nil_r. rewrite Hlong.
    + unfold split_seps. rewrite split_seps_from_slash, T1.
      assert (Hlast : last ([] :: segs) [dot] = last segs [dot]).
      { destruct segs; [contradiction | reflexivity]. }
      rewrite Hlast, Hl.
      now rewrite join_slash_cons by assumption.
    + simpl. lia.
    + intros [Hx | Hx]; [discriminate Hx | auto].
  - (* a/b/ *)
    rewrite Hlong.
    + unfold split_seps. rewrite S2, last_last, removelast_last. reflexivity.
    + rewrite length_app. simpl. lia.
    + intros Hx. apply in_app_or in Hx.
      destruct Hx as [Hx | [Hx | []]]; [auto | discriminate Hx].
  - (* a/b *)
    rewrite app_nil_r.
    destruct (join_slash segs) as [| c [| c1 q]] eqn:Ej; [contradiction | |].
    + simpl. destruct (is_sep c) eqn:Ec; [| reflexivity].
      exfalso.
      assert (Hin : In c (join_slash segs)) by (rewrite Ej; now left).
      apply join_slash_chars in Hin. destruct Hin as [-> | [seg [Hseg Hc]]].
      * pose proof (starts_with_slash_join segs H) as Hs. rewrite Ej in Hs. discriminate Hs.
      * rewrite Forall_forall in H. destruct (H seg Hseg) as [_ Hsf].
        rewrite (Hsf _ Hc) in Ec. discriminate Ec.
    + rewrite Hlong.
      * unfold split_seps. rewrite S1, Hl. exact Ej.
      * simpl. lia.
      * assumption.
Qed.


(** *** [path.join] followed by [normalize-path] *)

Lemma segments_pieces :
  forall allow j,
    ~ In backslash j -> Forall piece (normalize_segments allow (split_slash j)).
Proof.
  intros allow j Hb. apply Forall_forall. intros seg Hseg. split.
  - apply (normal_stack_not_empty allow (rev (normalize_segments allow (split_slash j)))).
    + apply normalize_segments_normal.
    + rewrite <- in_rev. exact Hseg.
  - apply normalize_segments_incl in Hseg.
    intros c Hc. apply not_sep_intro.
    + destruct (is_slash c) eqn:E; [| reflexivity].
      apply is_slash_eq in E. subst c.
      exfalso. exact (split_slash_no_slash j seg Hseg Hc).
    + intros ->. apply Hb. exact (split_slash_chars j seg _ Hseg Hc).
Qed.

Lemma segments_pieces_app :
  forall allow r l,
    ~ In backslash r -> ~ In backslash l ->
    Forall piece (normalize_segments allow (split_slash r ++ split_slash l)).
Proof.
  intros allow r l Hr Hl. apply Forall_forall. intros seg Hseg. split.
  - apply (normal_stack_not_empty allow
             (rev (normalize_segments allow (split_slash r ++ split_slash l)))).
    + apply normalize_segments_normal.
    + rewrite <- in_rev. exact Hseg.
  - apply normalize_segments_incl in Hseg.
    intros c Hc. apply not_sep_intro.
    + destruct (is_slash c) eqn:E; [| reflexivity].
      apply is_slash_eq in E. subst c. exfalso.
      apply in_app_or in Hseg.
      destruct Hseg as [Hseg | Hseg]; exact (split_slash_no_slash _ seg Hseg Hc).
    + intros ->. apply in_app_or in Hseg. destruct Hseg as [Hseg | Hseg].
      * apply Hr. exact (split_slash_chars r seg _ Hseg Hc).
      * apply Hl. exact (split_slash_chars l seg _ Hseg Hc).
Qed.

(** On a path without backslash, [normalize-path] after
    [path.posix.normalize] renders the normalised segments. *)
Lemma normalize_key :
  forall j,
    j <> [] -> ~ In backslash j ->
    normalize_path (posix_normalize j)
    = render (starts_with_slash j)
             (normalize_segments (negb (starts_with_slash j)) (split_slash j)).
Proof.
  intros j Hj Hb.
  pose proof (segments_pieces (negb (starts_with_slash j)) j Hb) as Hp.
  destruct j as [| c j]; [contradiction |].
  unfold posix_normalize. cbv zeta. rewrite normalizeString_segments.
  set (path := c :: j) in *.
  set (segs := normalize_segments (negb (starts_with_slash path)) (split_slash path)) in *.
  destruct segs as [| seg rest] eqn:Es.
  - simpl join_slash. cbv iota.
    destruct (starts_with_slash path), (ends_with_slash path); reflexivity.
  - assert (Hn : seg :: rest <> []) by discriminate.
    pose proof (join_slash_not_nil _ Hn Hp) as Hne.
    destruct (join_slash (seg :: rest)) as [| a q] eqn:Ej; [contradiction |].
    rewrite <- Ej.
    rewrite <- (normalize_path_key (starts_with_slash path) (ends_with_slash path)
                  (seg :: rest) Hn Hp).
    destruct (starts_with_slash path), (ends_with_slash path);
      simpl app; rewrite ?app_nil_r; reflexivity.
Qed.

Lemma normalize_segments_skip_empty :
  forall allow segs, normalize_segments allow ([] :: segs) = normalize_segments allow segs.
Proof. reflexivity. Qed.

Lemma normalize_segments_skip_last_empty :
  forall allow segs, normalize_segments allow (segs ++ [[]]) = normalize_segments allow segs.
Proof.
  intros allow segs. unfold normalize_segments. rewrite fold_left_app. reflexivity.
Qed.

(** The key for a root prefix and a path without backslashes: the segments
    of the root followed by those of the path, normalised and rendered. *)
Lemma join_key :
  forall r l,
    ~ In backslash r -> ~ In backslash l ->
    let isAbsolute := starts_with_slash (match r with [] => l | _ :: _ => r end) in
    normalize_path (posix_join r l)
    = render isAbsolute
             (normalize_segments (negb isAbsolute) (split_slash r ++ split_slash l)).
Proof.
  intros r l Hr Hl. unfold posix_join.
  destruct r as [| a r], l as [| b l].
  - reflexivity.
  - cbv zeta. rewrite normalize_key by (discriminate || assumption).
    simpl app. now rewrite normalize_segments_skip_empty.
  - cbv zeta. rewrite normalize_key by (discriminate || assumption).
    simpl split_slash at 3. now rewrite normalize_segments_skip_last_empty.
  - cbv zeta. rewrite normalize_key.
    + rewrite split_slash_app_slash. reflexivity.
    + discriminate.
    + intros Hin. apply in_app_or in Hin.
      destruct Hin as [Hin | [Hin | Hin]]; [auto | discriminate Hin | auto].
Qed.

Lemma render_not_nil : forall isAbsolute segs, Forall piece segs -> render isAbsolute segs <> [].
Proof.
  intros isAbsolute [| seg rest] H.
  - destruct isAbsolute; discriminate.
  - pose proof (join_slash_not_nil (seg :: rest) ltac:(discriminate) H) as Hn.
    unfold render. destruct isAbsolute; [discriminate | assumption].
Qed.

Lemma render_no_backslash :
  forall isAbsolute segs, Forall piece segs -> ~ In backslash (render isAbsolute segs).
Proof.
  intros isAbsolute [| seg rest] H.
  - destruct isAbsolute; simpl; intros [Hx | []]; discriminate Hx.
  - pose proof (pieces_no_backslash (seg :: rest) H) as Hb.
    unfold render. destruct isAbsolute; [| assumption].
    intros [Hx | Hx]; [discriminate Hx | auto].
Qed.

Lemma render_starts_with_slash :
  forall isAbsolute segs,
    Forall piece segs -> starts_with_slash (render isAbsolute segs) = isAbsolute.
Proof.
  intros isAbsolute [| seg rest] H.
  - destruct isAbsolute; reflexivity.
  - unfold render. destruct isAbsolute; [reflexivity |].
    now apply starts_with_slash_join.
Qed.

Lemma pieces_no_slash :
  forall segs, Forall piece segs -> forall seg, In seg segs -> ~ In slash seg.
Proof.
  intros segs H seg Hseg Hin. rewrite Forall_forall in H.
  destruct (H seg Hseg) as [_ Hs]. specialize (Hs _ Hin). discriminate Hs.
Qed.

Lemma render_segments :
  forall isAbsolute segs,
    Forall piece segs ->
    normal_stack (negb isAbsolute) (rev segs) = true ->
    normalize_segments (negb isAbsolute) (split_slash (render isAbsolute segs)) = segs.
Proof.
  intros isAbsolute [| seg rest] H Hn.
  - destruct isAbsolute; reflexivity.
  - unfold render. destruct isAbsolute.
    + change (split_slash (slash :: join_slash (seg :: rest)))
        with ([] :: split_slash (join_slash (seg :: rest))).
      rewrite normalize_segments_skip_empty.
      rewrite split_join;
        [now apply normalize_segments_fixed | discriminate | now apply pieces_no_slash].
    + rewrite split_join;
        [now apply normalize_segments_fixed | discriminate | now apply pieces_no_slash].
Qed.

Lemma posix_join_nil_l :
  forall l, l <> [] -> posix_join [] l = posix_normalize l.
Proof. intros [| c l] H; [contradiction | reflexivity]. Qed.

(** A rendered key is a fixed point of the normaliser without root. *)
Lemma render_fixed :
  forall isAbsolute segs,
    Forall piece segs ->
    normal_stack (negb isAbsolute) (rev segs) = true ->
    normalize_path (posix_join [] (render isAbsolute segs)) = render isAbsolute segs.
Proof.
  intros isAbsolute segs H Hn.
  rewrite posix_join_nil_l by now apply render_not_nil.
  rewrite normalize_key;
    [| now apply render_not_nil | now apply render_no_backslash].
  rewrite render_starts_with_slash by assumption.
  now rewrite render_segments.
Qed.



(** *** The root prefix the constructor keeps *)

Lemma inner_nonempty_cons :
  forall seg x rest,
    inner_nonempty (seg :: x :: rest) = negb (is_empty seg) && inner_nonempty (x :: rest).
Proof. reflexivity. Qed.

Lemma split_seps_from_shape :
  forall s,
    inner_nonempty (split_seps_from true s) = true
    /\ exists first rest,
        split_seps_from false s = first :: rest
        /\ (rest = [] \/ inner_nonempty rest = true).
Proof.
  induction s as [| c s [IHt [first [rest [IHf IHr]]]]].
  - split; [reflexivity |]. exists [], []. split; [reflexivity | now left].
  - simpl. destruct (is_sep c).
    + split; [assumption |].
      exists [], (split_seps_from true s). split; [reflexivity | now right].
    + rewrite IHf. split.
      * destruct rest as [| x rest]; [reflexivity |].
        destruct IHr as [IHr | IHr]; [discriminate IHr |].
        rewrite inner_nonempty_cons, IHr. reflexivity.
      * exists (c :: first), rest. split; [reflexivity | assumption].
Qed.

Lemma split_seps_from_sep_free :
  forall s b seg, In seg (split_seps_from b s) -> sep_free seg.
Proof.
  induction s as [| c s IH]; intros b seg H; simpl in H.
  - destruct H as [<- | []]. intros x [].
  - destruct (is_sep c) eqn:E.
    + destruct b.
      * now apply (IH true).
      * destruct H as [<- | H]; [intros x [] | now apply (IH true)].
    + destruct (split_seps_from false s) as [| seg0 rest] eqn:Es.
      * destruct H as [<- | []]. intros x [<- | []]. assumption.
      * destruct H as [<- | H].
        -- intros x [<- | Hx]; [assumption |].
           apply (IH false seg0); [rewrite Es; now left | assumption].
        -- apply (IH false seg). rewrite Es. now right.
Qed.

Lemma pop_empty_cons :
  forall seg x rest, pop_empty (seg :: x :: rest) = seg :: pop_empty (x :: rest).
Proof.
  intros seg x rest. unfold pop_empty.
  change (last (seg :: x :: rest) [dot]) with (last (x :: rest) [dot]).
  destruct (is_empty (last (x :: rest) [dot])); reflexivity.
Qed.

Lemma pop_empty_incl :
  forall segs seg, In seg (pop_empty segs) -> In seg segs.
Proof.
  intros segs seg. unfold pop_empty.
  destruct (is_empty (last segs [dot])); [| tauto].
  induction segs as [| x [| y segs] IH]; simpl; [tauto | tauto |].
  intros [H | H]; [now left | right; now apply IH].
Qed.

Lemma pop_empty_nonempty :
  forall segs seg,
    inner_nonempty segs = true -> In seg (pop_empty segs) -> seg <> [].
Proof.
  induction segs as [| x [| y segs] IH]; intros seg Hs Hin.
  - discriminate Hs.
  - unfold pop_empty in Hin. simpl in Hin.
    destruct x; simpl in Hin; [destruct Hin |].
    destruct Hin as [<- | []]. discriminate.
  - rewrite pop_empty_cons in Hin. rewrite inner_nonempty_cons in Hs.
    apply andb_true_iff in Hs. destruct Hs as [Hx Hs].
    destruct Hin as [<- | Hin].
    + destruct x; [discriminate Hx | discriminate].
    + now apply IH.
Qed.

Lemma strip_leading_slash_join :
  forall segs, Forall piece segs -> strip_leading_slash (join_slash segs) = join_slash segs.
Proof.
  intros segs H. pose proof (starts_with_slash_join segs H) as Hs.
  destruct (join_slash segs) as [| c q]; [reflexivity |].
  simpl in *. now rewrite Hs.
Qed.

(** Without backslash in the configured root, the root the constructor
    keeps is a slash-joined list of pieces. *)
Lemma strip_normalize_pieces :
  forall r,
    ~ In backslash r ->
    exists segs, Forall piece segs /\ strip_leading_slash (normalize_path r) = join_slash segs.
Proof.
  intros r Hb.
  destruct r as [| c0 [| c1 r]].
  - exists []. split; [constructor | reflexivity].
  - simpl. destruct (is_sep c0) eqn:E.
    + exists []. split; [constructor | reflexivity].
    + exists [[c0]]. split.
      * constructor; [| constructor]. split; [discriminate |].
        intros x [<- | []]. assumption.
      * simpl. now rewrite (not_sep_not_slash _ E).
  - assert (Hn : normalize_path (c0 :: c1 :: r)
                 = join_slash (pop_empty (split_seps (c0 :: c1 :: r)))).
    { unfold normalize_path.
      rewrite (win32_namespace_needs_backslash _ Hb). reflexivity. }
    rewrite Hn. unfold split_seps. clear Hn Hb.
    remember (c0 :: c1 :: r) as path eqn:Epath. clear Epath.
    pose proof (split_seps_from_sep_free path false) as Hfree.
    destruct (split_seps_from_shape path) as [_ [first [rest [Hsplit Hrest]]]].
    rewrite Hsplit in *.
    assert (Hpieces : forall l,
               inner_nonempty l = true ->
               (forall seg, In seg l -> sep_free seg) ->
               Forall piece (pop_empty l)).
    { intros l Hl Hf. apply Forall_forall. intros seg Hseg. split.
      - now apply (pop_empty_nonempty l).
      - apply Hf. now apply pop_empty_incl. }
    destruct rest as [| x rest].
    + (* one piece *)
      destruct first as [| a first].
      * exists []. split; [constructor | reflexivity].
      * exists [a :: first]. split.
        -- constructor; [| constructor]. split; [discriminate |].
           apply Hfree. now left.
        -- unfold pop_empty. simpl last. simpl is_empty. cbv iota.
           apply (strip_leading_slash_join [a :: first]).
           constructor; [| constructor]. split; [discriminate |].
           apply Hfree. now left.
    + destruct Hrest as [Hrest | Hrest]; [discriminate Hrest |].
      rewrite pop_empty_cons.
      assert (Hp : Forall piece (pop_empty (x :: rest))).
      { apply Hpieces; [assumption |]. intros seg Hseg. apply Hfree. now right. }
      destruct first as [| a first].
      * exists (pop_empty (x :: rest)). split; [assumption |].
        destruct (pop_empty (x :: rest)) as [| y l]; [reflexivity |].
        rewrite join_slash_cons by discriminate. reflexivity.
      * exists ((a :: first) :: pop_empty (x :: rest)).
        assert (Hall : Forall piece ((a :: first) :: pop_empty (x :: rest))).
        { constructor; [| assumption]. split; [discriminate |]. apply Hfree. now left. }
        split; [assumption | now apply strip_leading_slash_join].
Qed.

End PathFacts.

Import Path PathShape PathFacts.

Lemma str_unstr : forall l, str (unstr l) = l.
Proof. intro l. apply list_ascii_of_string_of_list_ascii. Qed.

Lemma unstr_str : forall s, unstr (str s) = s.
Proof. intro s. apply string_of_list_ascii_of_string. Qed.

Lemma str_empty : str "" = [].
Proof. reflexivity. Qed.

(** [_fullPath] on the characters of the root prefix and of the path. *)
Lemma fullPath_chars :
  forall this p,
    str (_fullPath this p) = normalize_path (posix_join (str (_root this)) (str p)).
Proof.
  intros this p. unfold _fullPath, normalize, path_join. now rewrite !str_unstr.
Qed.

(** The key [_fullPath] builds when neither the root prefix nor the path
    has a backslash: the segments of the root followed by those of the
    path, normalised, and joined by slashes. *)
Lemma fullPath_render :
  forall this p,
    no_backslash (_root this) -> no_backslash p ->
    let isAbsolute :=
      starts_with_slash (match str (_root this) with [] => str p | _ :: _ => str (_root this) end) in
    let segs :=
      normalize_segments (negb isAbsolute)
        (split_slash (str (_root this)) ++ split_slash (str p)) in
    str (_fullPath this p) = render isAbsolute segs
    /\ Forall piece segs
    /\ normal_stack (negb isAbsolute) (rev segs) = true.
Proof.
  intros this p Hr Hp isAbsolute segs. split; [| split].
  - rewrite fullPath_chars. now apply join_key.
  - now apply segments_pieces_app.
  - apply normalize_segments_normal.
Qed.

(** Settles [no_backslash] for a literal path. *)
Ltac clean_path :=
  let H := fresh "H" in
  unfold no_backslash; simpl; intros H;
  repeat (destruct H as [H | H]; [discriminate H |]); exact H.

(** C5 (amended): without root prefix, [_fullPath] is idempotent on the
    paths that have no backslash. *)
Theorem fullPath_idempotent_without_root :
  forall (this : SupabaseStorage) (p : string),
    _root this = ""%string ->
    no_backslash p ->
    _fullPath this (_fullPath this p) = _fullPath this p.
Proof.
  intros this p Hroot Hp.
  assert (Hr : no_backslash (_root this)) by (rewrite Hroot; intros []).
  destruct (fullPath_render this p Hr Hp) as [Hkey [Hpieces Hnormal]].
  rewrite <- (unstr_str (_fullPath this (_fullPath this p))).
  rewrite <- (unstr_str (_fullPath this p)) at 2.
  f_equal.
  rewrite (fullPath_chars this (_fullPath this p)).
  rewrite Hroot, str_empty, Hkey.
  now apply render_fixed.
Qed.

Lemma fullPath_idempotent_without_root_witness :
  _fullPath rootless_storage (_fullPath rootless_storage "/a//b/./c/../d/")
  = _fullPath rootless_storage "/a//b/./c/../d/".
Proof.
  apply fullPath_idempotent_without_root.
  - reflexivity.
  - clean_path.
Defined.

(** Whatever the root prefix, the key [_fullPath] builds is a normal form:
    the normaliser without root prefix leaves it as it is. *)
Lemma fullPath_is_normal_form :
  forall (this : SupabaseStorage) (p : string),
    no_backslash (_root this) ->
    no_backslash p ->
    normalize (path_join "" (_fullPath this p)) = _fullPath this p.
Proof.
  intros this p Hr Hp.
  destruct (fullPath_render this p Hr Hp) as [Hkey [Hpieces Hnormal]].
  unfold normalize, path_join. rewrite str_unstr, str_empty, Hkey.
  rewrite render_fixed by assumption.
  rewrite <- Hkey. apply unstr_str.
Qed.





(** * Further properties *)

(** ** The calls of the other operations *)

Section Passing.

Context {St : Type}.
Variable api : BucketApi St.
Variable this : SupabaseStorage.

Ltac one_call :=
  unfold copy, delete, exists_, get, getBuffer, toString, getSignedUrl, getStat, put,
    try_catch, bind, await, throw, ret;
  simpl; unfold logged; simpl;
  repeat match goal with
         | |- context [api_move ?a ?b ?c ?d ?s] => destruct (api_move a b c d s) as [[? | ?] ?]
         | |- context [api_remove ?a ?b ?c ?s] => destruct (api_remove a b c s) as [[? | ?] ?]
         | |- context [api_download ?a ?b ?c ?s] => destruct (api_download a b c s) as [[? | ?] ?]
         | |- context [api_createSignedUrl ?a ?b ?c ?d ?s] =>
             destruct (api_createSignedUrl a b c d s) as [[? | ?] ?]
         | |- context [api_upload ?a ?b ?c ?d ?s] => destruct (api_upload a b c d s) as [[? | ?] ?]
         | |- context [error ?r] => destruct (error r)
         | |- context [data ?r] => destruct (data r)
         | |- context [strict_eq_number ?v ?n] => destruct (strict_eq_number v n)
         end;
  simpl; reflexivity.

Lemma exists_calls :
  forall location s log,
    snd (snd (exists_ (traced api) this location (s, log)))
    = log ++ [DownloadCall (_folder this) location].
Proof. intros. one_call. Qed.

Lemma getBuffer_calls :
  forall location s log,
    snd (snd (getBuffer (traced api) this location (s, log)))
    = log ++ [DownloadCall (_folder this) location].
Proof. intros. one_call. Qed.

Lemma get_calls :
  forall location encoding s log,
    snd (snd (get (traced api) this location encoding (s, log)))
    = log ++ [DownloadCall (_folder this) location].
Proof. intros. one_call. Qed.

Lemma getSignedUrl_calls :
  forall location s log,
    snd (snd (getSignedUrl (traced api) this location (s, log)))
    = log ++ [CreateSignedUrlCall (_folder this) location 900].
Proof. intros. one_call. Qed.

Lemma getStat_calls :
  forall now location s log,
    snd (snd (getStat (traced api) now this location (s, log)))
    = log ++ [DownloadCall (_folder this) location].
Proof. intros. one_call. Qed.

Lemma put_calls :
  forall location body s log,
    snd (snd (put (traced api) this location body (s, log)))
    = log ++ [UploadCall (_folder this) location body].
Proof. intros. one_call. Qed.

End Passing.

(** X1: [copy], [delete], [exists], [getBuffer], [get], [getSignedUrl],
    [getStat] and [put] call the bucket API exactly once, whether they
    return or throw, with the keys exactly as they were given: none of them
    applies the root prefix or normalises a path.  The signed URL is always
    asked for 900 seconds. *)
Theorem keys_reach_the_bucket_as_given :
  forall (St : Type) (api : BucketApi St) (this : SupabaseStorage)
         (now : St * list ApiCall -> Z) (src dest location : string)
         (encoding : BufferEncoding) (body : PutContent) (s : St),
    snd (snd (copy (traced api) this src dest (s, [])))
      = [MoveCall (_folder this) src dest]
    /\ snd (snd (delete (traced api) this location (s, [])))
      = [RemoveCall (_folder this) [location]]
    /\ snd (snd (exists_ (traced api) this location (s, [])))
      = [DownloadCall (_folder this) location]
    /\ snd (snd (getBuffer (traced api) this location (s, [])))
      = [DownloadCall (_folder this) location]
    /\ snd (snd (get (traced api) this location encoding (s, [])))
      = [DownloadCall (_folder this) location]
    /\ snd (snd (getSignedUrl (traced api) this location (s, [])))
      = [CreateSignedUrlCall (_folder this) location 900]
    /\ snd (snd (getStat (traced api) now this location (s, [])))
      = [DownloadCall (_folder this) location]
    /\ snd (snd (put (traced api) this location body (s, [])))
      = [UploadCall (_folder this) location body].
Proof.
  intros St api this now src dest location encoding body s.
  rewrite traced_copy, traced_delete.
  rewrite exists_calls, getBuffer_calls, get_calls, getSignedUrl_calls, getStat_calls, put_calls.
  repeat split.
Qed.

(** X2: [getStat] downloads the object the way [getBuffer] does: it
    returns exactly when [getBuffer] returns, with the byte length of the
    content [getBuffer] gives as [size] (undefined with an undefined
    content), the reading of the clock after the download as [modified]
    and the same raw payload; when [getBuffer] throws, [getStat] throws the
    same error. *)
Theorem getStat_follows_getBuffer :
  forall (St : Type) (api : BucketApi St) (now : St -> Z) (this : SupabaseStorage)
         (location : string) (s : St),
    (forall r s',
        getBuffer api this location s = (Returns r, s') ->
        getStat api now this location s
        = (Returns {| size := option_map
                                (fun buffer => Z.of_nat (List.length (ab_bytes buffer)))
                                (content r);
                      modified := now s';
                      stat_raw := content_raw r |}, s'))
    /\ (forall e s',
           getBuffer api this location s = (Throws e, s') ->
           getStat api now this location s = (Throws e, s')).
Proof.
  intros St api now this location s.
  unfold getBuffer, getStat, try_catch, bind, await, throw, ret.
  destruct (api_download api (_folder this) location s) as [[r | reason] s1];
    [destruct (error r) as [pe |] |]; split; intros x s' H;
    inversion H; subst; reflexivity.
Qed.

Lemma getStat_follows_getBuffer_witness :
  getStat MemBucket.api (fun _ => 1700000000%Z) rootless_storage "hello.txt" sample_bucket
    = (Returns {| size := Some 5%Z;
                  modified := 1700000000%Z;
                  stat_raw := Some {| blob_bytes := hello;
                                      blob_type := "application/octet-stream" |} |},
       sample_bucket)
  /\ getStat MemBucket.api (fun _ => 1700000000%Z) rootless_storage "missing.txt" sample_bucket
    = (Throws (reported MemBucket.not_found "missing.txt"), sample_bucket).
Proof.
  split.
  - apply (proj1 (getStat_follows_getBuffer MemBucket.State MemBucket.api
                    (fun _ => 1700000000%Z) rootless_storage "hello.txt" sample_bucket)
             {| content := Some {| ab_bytes := hello |};
                content_raw := Some {| blob_bytes := hello;
                                       blob_type := "application/octet-stream" |} |}).
    reflexivity.
  - apply (proj2 (getStat_follows_getBuffer MemBucket.State MemBucket.api
                    (fun _ => 1700000000%Z) rootless_storage "missing.txt" sample_bucket)).
    reflexivity.
Defined.

(** X3: when a call of the bucket API is rejected, the call site catches
    the reason itself and throws its translation: the provider's error
    object is the cause, and an error named NoSuchKey, NoSuchBucket or
    AllAccessDisabled becomes [FileNotFound] with the key, [NoSuchBucket]
    with the bucket or [PermissionMissing] with the key.  [copy] names its
    source key. *)
Theorem rejected_calls_are_translated :
  forall (St : Type) (api : BucketApi St) (now : St -> Z) (this : SupabaseStorage)
         (src dest location : string) (body : PutContent)
         (reason : ProviderError) (s s' : St),
    (api_move api (_folder this) src dest s = (Rejected reason, s') ->
     copy api this src dest s = (Throws (rejected this reason src), s'))
    /\ (api_remove api (_folder this) [location] s = (Rejected reason, s') ->
        delete api this location s = (Throws (rejected this reason location), s'))
    /\ (api_download api (_folder this) location s = (Rejected reason, s') ->
        getBuffer api this location s = (Throws (rejected this reason location), s')
        /\ getStat api now this location s = (Throws (rejected this reason location), s'))
    /\ (api_createSignedUrl api (_folder this) location 900 s = (Rejected reason, s') ->
        getSignedUrl api this location s = (Throws (rejected this reason location), s'))
    /\ (api_upload api (_folder this) location body s = (Rejected reason, s') ->
        put api this location body s = (Throws (rejected this reason location), s'))
    /\ (forall p, exists q,
           rejected this reason p = Portable q /\ cause q = Provided reason)
    /\ (forall p, pe_name reason = "NoSuchKey" ->
                  rejected this reason p = Portable (FileNotFound (Provided reason) p))
    /\ (forall p, pe_name reason = "NoSuchBucket" ->
                  rejected this reason p
                  = Portable (NoSuchBucket (Provided reason) (_folder this)))
    /\ (forall p, pe_name reason = "AllAccessDisabled" ->
                  rejected this reason p = Portable (PermissionMissing (Provided reason) p)).
Proof.
  intros St api now this src dest location body reason s s'.
  repeat split.
  - intros H. unfold copy, try_catch, bind, await. rewrite H. reflexivity.
  - intros H. unfold delete, try_catch, bind, await. rewrite H. reflexivity.
  - unfold getBuffer, try_catch, bind, await. rewrite H. reflexivity.
  - unfold getStat, try_catch, bind, await. rewrite H. reflexivity.
  - intros H. unfold getSignedUrl, try_catch, bind, await. rewrite H. reflexivity.
  - intros H. unfold put, try_catch, bind, await. rewrite H. reflexivity.
  - intros p. exists (handleError (Provided reason) p (_folder this)).
    split; [reflexivity | apply handleError_cause].
  - intros p H. unfold rejected, handleError. simpl. rewrite H. reflexivity.
  - intros p H. unfold rejected, handleError. simpl. rewrite H. reflexivity.
  - intros p H. unfold rejected, handleError. simpl. rewrite H. reflexivity.
Qed.

Lemma rejected_calls_are_translated_witness :
  getBuffer (Scripted.api (Scripted.rejecting MemBucket.not_found)) assets_storage "a.txt" tt
    = (Throws (Portable (FileNotFound (Provided MemBucket.not_found) "a.txt")), tt)
  /\ put (Scripted.api (Scripted.rejecting access_disabled)) assets_storage "a.txt"
         (StringContent "hello") tt
    = (Throws (Portable (PermissionMissing (Provided access_disabled) "a.txt")), tt).
Proof.
  split.
  - pose proof (rejected_calls_are_translated unit
                  (Scripted.api (Scripted.rejecting MemBucket.not_found)) (fun _ => 0%Z)
                  assets_storage "a.txt" "b.txt" "a.txt" (StringContent "hello")
                  MemBucket.not_found tt tt) as H.
    destruct H as [_ [_ [Hd [_ [_ [_ [Hk _]]]]]]].
    rewrite <- (Hk "a.txt" eq_refl). apply Hd. reflexivity.
  - pose proof (rejected_calls_are_translated unit
                  (Scripted.api (Scripted.rejecting access_disabled)) (fun _ => 0%Z)
                  assets_storage "a.txt" "b.txt" "a.txt" (StringContent "hello")
                  access_disabled tt tt) as H.
    destruct H as [_ [_ [_ [_ [Hu [_ [_ [_ Ha]]]]]]]].
    rewrite <- (Ha "a.txt" eq_refl). apply Hu. reflexivity.
Defined.

(** X4: what [exists] answers.  A reply without error gives
    [{ exists: true }] with the data as raw, also when the reply has no
    data.  A rejected call gives [{ exists: false }] with the reason as
    raw when the status code of the reason is the number 404, and throws
    the translated reason for any other status code: none, another number,
    or the text 404. *)
Theorem exists_answers :
  forall (St : Type) (api : BucketApi St) (this : SupabaseStorage)
         (location : string) (s s' : St),
    (forall d,
        api_download api (_folder this) location s
          = (Fulfilled {| data := d; error := None |}, s') ->
        exists_ api this location s
        = (Returns {| exists_value := true; exists_raw := RawData d |}, s'))
    /\ (forall reason,
           api_download api (_folder this) location s = (Rejected reason, s') ->
           pe_statusCode reason = JsNumber 404 ->
           exists_ api this location s
           = (Returns {| exists_value := false;
                         exists_raw := RawError (Provided reason) |}, s'))
    /\ (forall reason,
           api_download api (_folder this) location s = (Rejected reason, s') ->
           pe_statusCode reason <> JsNumber 404 ->
           exists_ api this location s = (Throws (rejected this reason location), s')).
Proof.
  intros St api this location s s'. repeat split.
  - intros d H. unfold exists_, try_catch, bind, await. rewrite H. reflexivity.
  - intros reason H Hc. unfold exists_, try_catch, bind, await. rewrite H. simpl.
    rewrite Hc. reflexivity.
  - intros reason H Hc. unfold exists_, try_catch, bind, await. rewrite H. simpl.
    destruct (pe_statusCode reason) as [| z | t] eqn:E; try reflexivity.
    simpl. destruct (Z.eqb_spec z 404) as [-> | Hz]; [contradiction | reflexivity].
Qed.

Lemma exists_answers_witness :
  exists_ (Scripted.api Scripted.empty) rootless_storage "a.txt" tt
    = (Returns {| exists_value := true; exists_raw := RawData None |}, tt)
  /\ exists_ (Scripted.api (Scripted.rejecting MemBucket.not_found)) rootless_storage "a.txt" tt
    = (Returns {| exists_value := false;
                  exists_raw := RawError (Provided MemBucket.not_found) |}, tt)
  /\ exists_ (Scripted.api (Scripted.rejecting
                              (mkProviderError "NoSuchKey" "Object not found" (JsString "404"))))
             rootless_storage "a.txt" tt
    = (Throws (Portable (FileNotFound
                           (Provided (mkProviderError "NoSuchKey" "Object not found"
                                                      (JsString "404")))
                           "a.txt")), tt).
Proof.
  split; [| split].
  - apply (proj1 (exists_answers unit (Scripted.api Scripted.empty)
                    rootless_storage "a.txt" tt tt)).
    reflexivity.
  - apply (proj1 (proj2 (exists_answers unit
                           (Scripted.api (Scripted.rejecting MemBucket.not_found))
                           rootless_storage "a.txt" tt tt)));
      reflexivity.
  - refine (proj2 (proj2 (exists_answers unit
                            (Scripted.api (Scripted.rejecting
                               (mkProviderError "NoSuchKey" "Object not found"
                                                (JsString "404"))))
                            rootless_storage "a.txt" tt tt))
              (mkProviderError "NoSuchKey" "Object not found" (JsString "404")) _ _);
      [reflexivity | simpl; discriminate].
Defined.

(** X5: [get] does nothing with its encoding: for every two encodings it
    gives the same result, text included, and it leaves the service in the
    state [getBuffer] leaves it in. *)
Theorem get_ignores_encoding :
  forall (St : Type) (api : BucketApi St) (this : SupabaseStorage)
         (location : string) (encoding encoding' : BufferEncoding) (s : St),
    get api this location encoding s = get api this location encoding' s
    /\ snd (get api this location encoding s) = snd (getBuffer api this location s).
Proof.
  intros St api this location encoding encoding' s.
  unfold get, bind.
  destruct (getBuffer api this location s) as [[r | e] s']; [| split; reflexivity].
  destruct (content r); split; reflexivity.
Qed.

(** X6: when the listing fails, [flatList] yields nothing and ends by
    throwing: the translation of a fresh [Error] for a reply that reports
    an error, the translation of the reason for a rejected call; the path
    of the error is the normalised prefix, not the prefix that was
    given. *)
Theorem flatList_failure :
  forall (St : Type) (api : BucketApi St) (this : SupabaseStorage)
         (fuel : nat) (prefix : string) (s s' : St),
    (forall r pe,
        api_list api (_folder this) (_fullPath this prefix) s = (Fulfilled r, s') ->
        error r = Some pe ->
        flatList api this (S fuel) prefix s
        = (([], Some (Throws (reported pe (_fullPath this prefix)))), s'))
    /\ (forall reason,
           api_list api (_folder this) (_fullPath this prefix) s = (Rejected reason, s') ->
           flatList api this (S fuel) prefix s
           = (([], Some (Throws (rejected this reason (_fullPath this prefix)))), s')).
Proof.
  intros St api this fuel prefix s s'. split.
  - intros r pe H Hr. unfold flatList. cbn [flatList_loop].
    unfold flatList_page, try_catch, bind, await. rewrite H. simpl. rewrite Hr.
    reflexivity.
  - intros reason H. unfold flatList. cbn [flatList_loop].
    unfold flatList_page, try_catch, bind, await. rewrite H. reflexivity.
Qed.

Lemma flatList_failure_witness :
  flatList (Scripted.api (Scripted.reporting access_disabled)) assets_storage 1 "./docs/" tt
    = (([], Some (Throws (reported access_disabled "assets/docs"))), tt)
  /\ flatList (Scripted.api (Scripted.rejecting access_disabled)) assets_storage 1 "./docs/" tt
    = (([], Some (Throws (Portable (PermissionMissing (Provided access_disabled)
                                                      "assets/docs")))), tt).
Proof.
  split.
  - apply (proj1 (flatList_failure unit (Scripted.api (Scripted.reporting access_disabled))
                    assets_storage 0 "./docs/" tt tt)
             {| data := None; error := Some access_disabled |} access_disabled);
      reflexivity.
  - apply (proj2 (flatList_failure unit (Scripted.api (Scripted.rejecting access_disabled))
                    assets_storage 0 "./docs/" tt tt) access_disabled).
    reflexivity.
Defined.

(** X7: [getUrl] never throws a portable error: when the reply of
    [getPublicUrl] reports an error it throws a fresh [Error] that carries
    the message only, untranslated; otherwise it returns the public URL of
    the reply. *)
Theorem getUrl_throws_untranslated :
  forall (St : Type) (api : BucketApi St) (this : SupabaseStorage) (location : string),
    (forall p, getUrl api this location <> Throws (Portable p))
    /\ (forall pe,
           publicUrl_error (api_getPublicUrl api (_folder this) location) = Some pe ->
           getUrl api this location = Throws (Native (NewError (pe_message pe))))
    /\ (forall u,
           publicUrl_error (api_getPublicUrl api (_folder this) location) = None ->
           publicURL (api_getPublicUrl api (_folder this) location) = Some u ->
           getUrl api this location = Returns u).
Proof.
  intros St api this location. unfold getUrl. repeat split.
  - intros p. destruct (publicUrl_error _); discriminate.
  - intros pe H. rewrite H. reflexivity.
  - intros u He Hu. rewrite He, Hu. reflexivity.
Qed.

Lemma getUrl_throws_untranslated_witness :
  getUrl (Scripted.api (Scripted.reporting access_disabled)) assets_storage "a.txt"
    = Throws (Native (NewError "All access to this object has been disabled"))
  /\ getUrl MemBucket.api assets_storage "a.txt" = Returns "/object/public/media/a.txt".
Proof.
  split.
  - apply (proj1 (proj2 (getUrl_throws_untranslated unit
                           (Scripted.api (Scripted.reporting access_disabled))
                           assets_storage "a.txt")) access_disabled).
    reflexivity.
  - apply (proj2 (proj2 (getUrl_throws_untranslated MemBucket.State MemBucket.api
                           assets_storage "a.txt")));
      reflexivity.
Defined.

(** ** The adapter over the bucket in memory *)

Lemma lookup_erase_same :
  forall key objs, MemBucket.lookup key (MemBucket.erase key objs) = None.
Proof.
  intros key objs. unfold MemBucket.erase.
  induction objs as [| [k v] objs IH]; [reflexivity |].
  simpl. destruct (k =? key) eqn:E; simpl; [assumption |].
  now rewrite E.
Qed.

Lemma lookup_erase_other :
  forall key key' objs,
    key <> key' ->
    MemBucket.lookup key (MemBucket.erase key' objs) = MemBucket.lookup key objs.
Proof.
  intros key key' objs Hne. unfold MemBucket.erase.
  induction objs as [| [k v] objs IH]; [reflexivity |].
  simpl. destruct (k =? key') eqn:E; simpl.
  - apply String.eqb_eq in E. subst k.
    destruct (key' =? key) eqn:E'; [| assumption].
    apply String.eqb_eq in E'. now subst.
  - destruct (k =? key); [reflexivity | assumption].
Qed.

Lemma lookup_store_same :
  forall key v objs, MemBucket.lookup key (MemBucket.store key v objs) = Some v.
Proof. intros key v objs. unfold MemBucket.store. simpl. now rewrite String.eqb_refl. Qed.

Lemma lookup_store_other :
  forall key key' v objs,
    key <> key' ->
    MemBucket.lookup key (MemBucket.store key' v objs) = MemBucket.lookup key objs.
Proof.
  intros key key' v objs Hne. unfold MemBucket.store. simpl.
  destruct (key' =? key) eqn:E.
  - apply String.eqb_eq in E. now subst.
  - now apply lookup_erase_other.
Qed.

(** X8: [move] on a bucket in memory whose [move] renames and whose
    [remove] works.  When the source key holds an object, [move] returns
    [{ raw: undefined }]; afterwards nothing is stored under the source
    key, the object is under the destination key if the two keys differ
    (if they are the same key, the object is gone), and every other key
    holds what it held.  When the source key holds nothing, [move] throws
    what [copy] throws and the bucket is as it was. *)
Theorem move_relocates_in_memory :
  forall (this : SupabaseStorage) (src dest : string)
         (objs : list (string * list Byte.byte)),
    let source := _fullPath this src in
    let target := _fullPath this dest in
    let s := {| MemBucket.objects := objs; MemBucket.remove_fault := None |} in
    (forall v,
        MemBucket.lookup source objs = Some v ->
        exists objs',
          move MemBucket.api this src dest s
          = (Returns {| raw := None |},
             {| MemBucket.objects := objs'; MemBucket.remove_fault := None |})
          /\ MemBucket.lookup source objs' = None
          /\ (source <> target -> MemBucket.lookup target objs' = Some v)
          /\ (forall key, key <> source -> key <> target ->
                          MemBucket.lookup key objs' = MemBucket.lookup key objs))
    /\ (MemBucket.lookup source objs = None ->
        move MemBucket.api this src dest s
        = (Throws (reported MemBucket.not_found source), s)).
Proof.
  intros this src dest objs source target s. split.
  - intros v H.
    exists (MemBucket.erase source
              (MemBucket.store target v (MemBucket.erase source objs))).
    split; [| split; [| split]].
    + unfold move, copy, delete, bind, try_catch, await. fold source. fold target.
      simpl. unfold MemBucket.move. simpl. rewrite H. reflexivity.
    + apply lookup_erase_same.
    + intros Hne. rewrite lookup_erase_other by (intro E; apply Hne; now symmetry).
      apply lookup_store_same.
    + intros key Hs Ht.
      rewrite lookup_erase_other by assumption.
      rewrite lookup_store_other by assumption.
      now apply lookup_erase_other.
  - intros H. unfold move, copy, delete, bind, try_catch, await. fold source. fold target.
    simpl. unfold MemBucket.move. simpl. rewrite H. reflexivity.
Qed.

Lemma move_relocates_in_memory_witness :
  (exists objs',
      move MemBucket.api assets_storage "x.png" "y.png" sample_bucket
      = (Returns {| raw := None |},
         {| MemBucket.objects := objs'; MemBucket.remove_fault := None |})
      /\ MemBucket.lookup "assets/x.png" objs' = None
      /\ ("assets/x.png" <> "assets/y.png" ->
          MemBucket.lookup "assets/y.png" objs' = Some hello)
      /\ (forall key, key <> "assets/x.png" -> key <> "assets/y.png" ->
                      MemBucket.lookup key objs'
                      = MemBucket.lookup key (MemBucket.objects sample_bucket)))
  /\ move MemBucket.api assets_storage "z.png" "y.png" sample_bucket
    = (Throws (reported MemBucket.not_found "assets/z.png"), sample_bucket).
Proof.
  split.
  - exact (proj1 (move_relocates_in_memory assets_storage "x.png" "y.png"
                    (MemBucket.objects sample_bucket)) hello eq_refl).
  - exact (proj2 (move_relocates_in_memory assets_storage "z.png" "y.png"
                    (MemBucket.objects sample_bucket)) eq_refl).
Defined.

(** X9: [put] followed by reads, on a bucket in memory.  [put] returns, and
    afterwards the bytes of the content are stored under the location as
    it was given (the root prefix is not applied), [getBuffer] returns
    them, [exists] answers true, [getStat] gives their number as size, and
    every other key holds what it held. *)
Theorem put_then_read_in_memory :
  forall (this : SupabaseStorage) (now : MemBucket.State -> Z)
         (location : string) (body : PutContent) (s : MemBucket.State),
    let s1 := snd (put MemBucket.api this location body s) in
    let bytes := MemBucket.bytes_of body in
    let blob := {| blob_bytes := bytes; blob_type := "application/octet-stream" |} in
    fst (put MemBucket.api this location body s)
      = Returns {| raw := Some (Key (_folder this ++ "/" ++ location)%string) |}
    /\ MemBucket.lookup location (MemBucket.objects s1) = Some bytes
    /\ getBuffer MemBucket.api this location s1
      = (Returns {| content := Some {| ab_bytes := bytes |}; content_raw := Some blob |}, s1)
    /\ exists_ MemBucket.api this location s1
      = (Returns {| exists_value := true; exists_raw := RawData (Some blob) |}, s1)
    /\ getStat MemBucket.api now this location s1
      = (Returns {| size := Some (Z.of_nat (List.length bytes));
                    modified := now s1;
                    stat_raw := Some blob |}, s1)
    /\ (forall key, key <> location ->
                    MemBucket.lookup key (MemBucket.objects s1)
                    = MemBucket.lookup key (MemBucket.objects s)).
Proof.
  intros this now location body s s1 bytes blob.
  assert (Hs1 : s1 = {| MemBucket.objects :=
                          MemBucket.store location bytes (MemBucket.objects s);
                        MemBucket.remove_fault := MemBucket.remove_fault s |})
    by reflexivity.
  assert (Hl : MemBucket.lookup location (MemBucket.objects s1) = Some bytes).
  { rewrite Hs1. apply lookup_store_same. }
  split; [reflexivity |]. split; [exact Hl |].
  split; [| split; [| split]].
  - unfold getBuffer, try_catch, bind, await. simpl. unfold MemBucket.download.
    rewrite Hl. reflexivity.
  - unfold exists_, try_catch, bind, await. simpl. unfold MemBucket.download.
    rewrite Hl. reflexivity.
  - unfold getStat, try_catch, bind, await. simpl. unfold MemBucket.download.
    rewrite Hl. reflexivity.
  - intros key Hne. rewrite Hs1. simpl. now apply lookup_store_other.
Qed.

(** ** More about keys *)

Lemma str_app : forall a b : string, str (a ++ b)%string = str a ++ str b.
Proof.
  induction a as [| c a IH]; intros b; [reflexivity |].
  simpl. now rewrite <- IH.
Qed.

Lemma unstr_app : forall a b, unstr (a ++ b) = (unstr a ++ unstr b)%string.
Proof.
  induction a as [| c a IH]; intros b; [reflexivity |].
  simpl. now rewrite <- IH.
Qed.

Lemma str_inj : forall a b : string, str a = str b -> a = b.
Proof.
  intros a b H. rewrite <- (unstr_str a), <- (unstr_str b). now rewrite H.
Qed.

Lemma join_slash_app :
  forall a b,
    a <> [] -> b <> [] ->
    join_slash (a ++ b) = join_slash a ++ slash :: join_slash b.
Proof.
  induction a as [| x a IH]; intros b Ha Hb; [contradiction |].
  destruct a as [| y a].
  - simpl app. now rewrite join_slash_cons.
  - change ((x :: y :: a) ++ b) with (x :: ((y :: a) ++ b)).
    rewrite join_slash_cons by (simpl; discriminate).
    rewrite IH by (assumption || discriminate).
    rewrite (join_slash_cons x (y :: a)) by discriminate.
    now rewrite <- app_assoc.
Qed.

Lemma all_proper_normal :
  forall allow stack,
    (forall seg, In seg stack -> proper seg = true) ->
    normal_stack allow stack = true.
Proof.
  induction stack as [| seg rest IH]; intros H; [reflexivity |].
  simpl. rewrite (proper_not_dotdot seg) by (apply H; now left).
  rewrite (H seg) by now left. simpl. apply IH. intros x Hx. apply H. now right.
Qed.

(** The pieces of a path of plain names. *)
Lemma plain_path_pieces :
  forall p,
    plain_path p ->
    Forall piece (split_slash (str p))
    /\ (forall seg, In seg (split_slash (str p)) -> proper seg = true)
    /\ no_backslash p
    /\ leading_slash p = false
    /\ str p <> [].
Proof.
  intros p H. unfold plain_path in H.
  assert (Hp : Forall piece (split_slash (str p))).
  { apply Forall_forall. intros seg Hseg. rewrite Forall_forall in H.
    destruct (H seg Hseg) as [Hpr Hsf]. split; [now apply proper_not_empty | assumption]. }
  split; [exact Hp |]. split; [| split; [| split]].
  - intros seg Hseg. rewrite Forall_forall in H. now destruct (H seg Hseg).
  - unfold no_backslash. rewrite <- (join_split (str p)). now apply pieces_no_backslash.
  - unfold leading_slash. rewrite <- (join_split (str p)). now apply starts_with_slash_join.
  - rewrite <- (join_split (str p)). apply join_slash_not_nil; [apply split_slash_not_nil | exact Hp].
Qed.

Lemma normalize_segments_plain :
  forall allow segs,
    (forall seg, In seg segs -> proper seg = true) ->
    normalize_segments allow segs = segs.
Proof.
  intros allow segs H. apply normalize_segments_fixed. apply all_proper_normal.
  intros seg Hseg. apply H. now apply in_rev.
Qed.

(** Under a root prefix of plain names, a path of plain names is prefixed
    and nothing else. *)
Lemma fullPath_plain :
  forall (this : SupabaseStorage) (p : string),
    plain_path (_root this) ->
    plain_path p ->
    _fullPath this p = (_root this ++ "/" ++ p)%string.
Proof.
  intros this p Hroot Hp.
  destruct (plain_path_pieces _ Hroot) as [Hrp [Hrpr [Hrb [Hrl Hrn]]]].
  destruct (plain_path_pieces _ Hp) as [Hpp [Hppr [Hpb [Hpl Hpn]]]].
  destruct (fullPath_render this p Hrb Hpb) as [Hkey _].
  apply str_inj. rewrite Hkey.
  destruct (str (_root this)) as [| c r] eqn:Er; [contradiction |].
  rewrite <- Er in *.
  unfold leading_slash in Hrl. rewrite Hrl. simpl negb.
  rewrite normalize_segments_plain.
  - pose proof (split_slash_not_nil (str (_root this))) as Hn1.
    pose proof (split_slash_not_nil (str p)) as Hn2.
    unfold render.
    destruct (split_slash (str (_root this)) ++ split_slash (str p)) eqn:E.
    + apply app_eq_nil in E. destruct E as [E _]. contradiction.
    + rewrite <- E. rewrite join_slash_app by assumption.
      rewrite !join_split, !str_app. reflexivity.
  - intros seg Hseg. apply in_app_or in Hseg. destruct Hseg; auto.
Qed.

(** X10: for a root prefix and a path made of plain names, the key is the
    root prefix, a slash and the path. *)
Theorem fullPath_prefixes_plain_paths :
  forall (this : SupabaseStorage) (p : string),
    plain_path (_root this) ->
    plain_path p ->
    _fullPath this p = (_root this ++ "/" ++ p)%string.
Proof. intros this p Hroot Hp. now apply fullPath_plain. Qed.

(** Settles [plain_path] for a literal path. *)
Ltac plain_literal :=
  unfold plain_path; simpl;
  repeat (apply Forall_cons || apply Forall_nil);
  (split; [reflexivity |]);
  let c := fresh "c" in
  let H := fresh "H" in
  intros c H; simpl in H;
  repeat (destruct H as [H | H]; [subst c; reflexivity |]); destruct H.

Lemma fullPath_prefixes_plain_paths_witness :
  _fullPath assets_storage "a/b.png" = "assets/a/b.png".
Proof.
  apply (fullPath_prefixes_plain_paths assets_storage "a/b.png"); plain_literal.
Defined.

(** X11: the root prefix does not confine the keys.  Under a root prefix
    that is one plain name, the key of [../p] is the key of [p] without any
    root prefix, for every path [p] without backslash and leading slash. *)
Theorem fullPath_dotdot_leaves_the_root :
  forall (this : SupabaseStorage) (p : string),
    plain_path (_root this) ->
    ~ In slash (str (_root this)) ->
    no_backslash p ->
    leading_slash p = false ->
    _fullPath this ("../" ++ p) = normalize (path_join "" p).
Proof.
  intros this p Hroot Hone Hpb Hpl.
  destruct (plain_path_pieces _ Hroot) as [Hrp [Hrpr [Hrb [Hrl Hrn]]]].
  assert (Hb : no_backslash ("../" ++ p)).
  { unfold no_backslash. simpl. intros [H | [H | [H | H]]]; try discriminate H. auto. }
  destruct (fullPath_render this ("../" ++ p) Hrb Hb) as [Hkey _].
  apply str_inj. rewrite Hkey. unfold normalize, path_join.
  rewrite !str_unstr, str_empty.
  rewrite (join_key [] (str p)) by (intros [] || assumption).
  cbv zeta.
  destruct (str (_root this)) as [| c r] eqn:Er; [contradiction |].
  rewrite <- Er in *.
  unfold leading_slash in Hrl, Hpl. rewrite Hrl, Hpl. simpl negb.
  f_equal.
  rewrite (split_slash_one _ Hone).
  change (str ("../" ++ p)) with ([dot; dot] ++ slash :: str p).
  rewrite split_slash_app by (intros [H | [H | []]]; discriminate H).
  assert (Hproper : proper (str (_root this)) = true).
  { apply Hrpr. rewrite (split_slash_one _ Hone). now left. }
  unfold normalize_segments. simpl app. cbn [fold_left].
  assert (H1 : normalize_step true [] (str (_root this)) = [str (_root this)]).
  { apply normalize_step_push. simpl. rewrite (proper_not_dotdot _ Hproper), Hproper.
    reflexivity. }
  rewrite H1.
  assert (H2 : normalize_step true [str (_root this)] [dot; dot] = []).
  { unfold normalize_step. simpl. now rewrite (proper_not_dotdot _ Hproper). }
  rewrite H2. reflexivity.
Qed.

Lemma fullPath_dotdot_leaves_the_root_witness :
  _fullPath assets_storage "../secret/key.pem" = "secret/key.pem".
Proof.
  apply (fullPath_dotdot_leaves_the_root assets_storage "secret/key.pem").
  - plain_literal.
  - simpl. intros H. repeat (destruct H as [H | H]; [discriminate H |]). exact H.
  - clean_path.
  - reflexivity.
Defined.

(** X12: a slash at the end of the path makes no difference to the key,
    unless both the root prefix and the path are empty. *)
Theorem fullPath_ignores_trailing_slash :
  forall (this : SupabaseStorage) (p : string),
    no_backslash (_root this) ->
    no_backslash p ->
    (_root this <> "" \/ p <> "") ->
    _fullPath this (p ++ "/") = _fullPath this p.
Proof.
  intros this p Hr Hp Hcase.
  assert (Hb : no_backslash (p ++ "/")).
  { unfold no_backslash. rewrite str_app. intros H. apply in_app_or in H.
    destruct H as [H | [H | []]]; [auto | discriminate H]. }
  apply str_inj.
  rewrite !fullPath_chars, !join_key by assumption. cbv zeta.
  rewrite str_app.
  change (str "/") with ([slash] : list ascii).
  assert (Habs : starts_with_slash
                   (match str (_root this) with
                    | [] => str p ++ [slash]
                    | _ :: _ => str (_root this)
                    end)
                 = starts_with_slash
                     (match str (_root this) with
                      | [] => str p
                      | _ :: _ => str (_root this)
                      end)).
  { destruct (str (_root this)) as [| c r] eqn:Er; [| reflexivity].
    destruct (str p) as [| a l] eqn:Ep; [| reflexivity].
    exfalso. destruct Hcase as [H | H]; apply H; apply str_inj.
    - now rewrite Er.
    - now rewrite Ep. }
  rewrite Habs. f_equal.
  rewrite (split_slash_app_slash (str p) []).
  change (split_slash []) with ([[]] : list (list ascii)).
  rewrite app_assoc. apply normalize_segments_skip_last_empty.
Qed.

Lemma fullPath_ignores_trailing_slash_witness :
  _fullPath assets_storage ("docs/2024" ++ "/") = _fullPath assets_storage "docs/2024".
Proof.
  apply (fullPath_ignores_trailing_slash assets_storage "docs/2024").
  - clean_path.
  - clean_path.
  - left. vm_compute. discriminate.
Defined.

Lemma normalize_segments_skip_dot :
  forall allow a b,
    normalize_segments allow (a ++ [dot] :: b) = normalize_segments allow (a ++ b).
Proof.
  intros allow a b. unfold normalize_segments. now rewrite !fold_left_app.
Qed.

(** X13: a leading [./] makes no difference to the key, unless there is no
    root prefix and the path begins with a slash. *)
Theorem fullPath_ignores_leading_dot :
  forall (this : SupabaseStorage) (p : string),
    no_backslash (_root this) ->
    no_backslash p ->
    (_root this <> "" \/ leading_slash p = false) ->
    _fullPath this ("./" ++ p) = _fullPath this p.
Proof.
  intros this p Hr Hp Hcase.
  assert (Hb : no_backslash ("./" ++ p)).
  { unfold no_backslash. simpl. intros [H | [H | H]]; try discriminate H. auto. }
  apply str_inj.
  rewrite !fullPath_chars, !join_key by assumption. cbv zeta.
  change (str ("./" ++ p)) with ([dot] ++ slash :: str p).
  assert (Habs : starts_with_slash
                   (match str (_root this) with
                    | [] => [dot] ++ slash :: str p
                    | _ :: _ => str (_root this)
                    end)
                 = starts_with_slash
                     (match str (_root this) with
                      | [] => str p
                      | _ :: _ => str (_root this)
                      end)).
  { destruct (str (_root this)) as [| c r] eqn:Er; [| reflexivity].
    destruct Hcase as [H | H].
    - exfalso. apply H. apply str_inj. now rewrite Er.
    - unfold leading_slash in H. now rewrite H. }
  rewrite Habs. f_equal.
  rewrite split_slash_app by (intros [H | []]; discriminate H).
  apply normalize_segments_skip_dot.
Qed.

Lemma fullPath_ignores_leading_dot_witness :
  _fullPath rootless_storage ("./" ++ "docs/a.txt") = _fullPath rootless_storage "docs/a.txt".
Proof.
  apply (fullPath_ignores_leading_dot rootless_storage "docs/a.txt").
  - clean_path.
  - clean_path.
  - right. reflexivity.
Defined.

(** The key of the empty path under a root prefix of plain names. *)
Lemma fullPath_of_empty_path :
  forall this, plain_path (_root this) -> _fullPath this "" = _root this.
Proof.
  intros this Hroot.
  destruct (plain_path_pieces _ Hroot) as [Hrp [Hrpr [Hrb [Hrl Hrn]]]].
  assert (He : no_backslash "") by (intros []).
  destruct (fullPath_render this "" Hrb He) as [Hkey _].
  apply str_inj. rewrite Hkey.
  destruct (str (_root this)) as [| c r] eqn:Er; [contradiction |].
  rewrite <- Er in *.
  unfold leading_slash in Hrl. rewrite Hrl. simpl negb.
  change (split_slash (str "")) with ([[]] : list (list ascii)).
  rewrite normalize_segments_skip_last_empty, normalize_segments_plain by assumption.
  pose proof (split_slash_not_nil (str (_root this))) as Hn.
  unfold render. destruct (split_slash (str (_root this))) eqn:E; [contradiction |].
  rewrite <- E. apply join_split.
Qed.

Lemma flatList_calls :
  forall (St : Type) (api : BucketApi St) (this : SupabaseStorage)
         (fuel : nat) (prefix : string) (s : St) (log : list ApiCall),
    snd (snd (flatList (traced api) this (S fuel) prefix (s, log)))
    = log ++ [ListCall (_folder this) (_fullPath this prefix)].
Proof.
  intros St api this fuel prefix s log. unfold flatList.
  rewrite flatList_loop_one_pass, traced_flatList_page.
  destruct (flatList_page api this (_fullPath this prefix) s) as [[items | e] s'];
    reflexivity.
Qed.

(** X14: called with the empty prefix, [flatList] asks the bucket for the
    listing of the root prefix itself when the root prefix is made of plain
    names, and for the listing of [.] when there is no root prefix. *)
Theorem flatList_of_empty_prefix :
  forall (St : Type) (api : BucketApi St) (this : SupabaseStorage) (fuel : nat) (s : St),
    (plain_path (_root this) ->
     snd (snd (flatList (traced api) this (S fuel) "" (s, [])))
     = [ListCall (_folder this) (_root this)])
    /\ (_root this = "" ->
        snd (snd (flatList (traced api) this (S fuel) "" (s, [])))
        = [ListCall (_folder this) "."]).
Proof.
  intros St api this fuel s. rewrite flatList_calls. split.
  - intros H. now rewrite fullPath_of_empty_path.
  - intros H. unfold _fullPath. rewrite H. reflexivity.
Qed.

Lemma flatList_of_empty_prefix_witness :
  snd (snd (flatList (traced MemBucket.api) assets_storage 1 "" (sample_bucket, [])))
    = [ListCall "media" "assets"]
  /\ snd (snd (flatList (traced MemBucket.api) rootless_storage 1 "" (sample_bucket, [])))
    = [ListCall "media" "."].
Proof.
  split.
  - apply (proj1 (flatList_of_empty_prefix MemBucket.State MemBucket.api assets_storage
                    0 sample_bucket)).
    plain_literal.
  - apply (proj2 (flatList_of_empty_prefix MemBucket.State MemBucket.api rootless_storage
                    0 sample_bucket)).
    reflexivity.
Defined.

Lemma ends_with_slash_join :
  forall segs, Forall piece segs -> ends_with_slash (join_slash segs) = false.
Proof.
  intros segs H.
  destruct segs as [| s0 segs0]; [reflexivity |].
  assert (Hne0 : s0 :: segs0 <> []) by discriminate.
  destruct (exists_last Hne0) as [init [x Hx]].
  rewrite Hx in *. clear Hx Hne0 s0 segs0.
  rewrite join_slash_snoc.
  rewrite Forall_forall in H.
  assert (Hin : In x (init ++ [x])) by (apply in_or_app; right; now left).
  destruct (H x Hin) as [Hne Hsf].
  destruct (exists_last Hne) as [x' [c Hc]]. subst x.
  assert (Hcs : is_slash c = false).
  { apply not_sep_not_slash. apply Hsf. apply in_or_app. right. now left. }
  unfold ends_with_slash.
  destruct init as [| y init].
  - rewrite rev_app_distr. simpl. exact Hcs.
  - rewrite app_comm_cons, app_assoc, rev_app_distr. simpl. exact Hcs.
Qed.

(** The root prefix the constructor keeps, as pieces. *)
Lemma constructor_root_shape :
  forall config : SupabaseStorageConfig,
    (forall r, root config = Some r -> no_backslash r) ->
    exists segs,
      Forall piece segs /\ str (_root (constructor config)) = join_slash segs.
Proof.
  intros config H. unfold constructor, init_root. simpl.
  destruct (root config) as [r |] eqn:Er; [| exists []; split; [constructor | reflexivity]].
  destruct (r =? "")%string; [exists []; split; [constructor | reflexivity] |].
  destruct (strip_normalize_pieces (str r) (H r eq_refl)) as [segs [Hp Hs]].
  exists segs. split; [assumption |]. now rewrite str_unstr.
Qed.

(** X15: the root prefix the constructor keeps for a configured root
    without backslash is a list of non-empty names joined by single
    slashes: it has no leading slash, no trailing slash, no doubled slash
    and no backslash. *)
Theorem constructor_root_is_a_key :
  forall config : SupabaseStorageConfig,
    (forall r, root config = Some r -> no_backslash r) ->
    (exists segs,
        Forall piece segs /\ str (_root (constructor config)) = join_slash segs)
    /\ leading_slash (_root (constructor config)) = false
    /\ ends_with_slash (str (_root (constructor config))) = false
    /\ no_backslash (_root (constructor config)).
Proof.
  intros config H.
  pose proof (constructor_root_shape config H) as Hsegs.
  split; [exact Hsegs |].
  destruct Hsegs as [segs [Hp Hs]].
  unfold leading_slash, no_backslash. rewrite Hs.
  split; [now apply starts_with_slash_join |].
  split; [now apply ends_with_slash_join | now apply pieces_no_backslash].
Qed.

Lemma constructor_root_is_a_key_witness :
  leading_slash (_root (constructor slashed_config)) = false
  /\ ends_with_slash (str (_root (constructor slashed_config))) = false.
Proof.
  assert (H : forall r, root slashed_config = Some r -> no_backslash r).
  { intros r Hr. injection Hr as <-. clean_path. }
  split.
  - exact (proj1 (proj2 (constructor_root_is_a_key slashed_config H))).
  - exact (proj1 (proj2 (proj2 (constructor_root_is_a_key slashed_config H)))).
Defined.

(** X16: the constructor changes nothing in a root prefix it has already
    normalised: configured with the root prefix of an adapter whose
    configured root had no backslash, it keeps that root prefix as it is. *)
Theorem constructor_root_is_stable :
  forall config config' : SupabaseStorageConfig,
    (forall r, root config = Some r -> no_backslash r) ->
    root config' = Some (_root (constructor config)) ->
    _root (constructor config') = _root (constructor config).
Proof.
  intros config config' H Hroot.
  destruct (constructor_root_shape config H) as [segs [Hp Hs]].
  remember (_root (constructor config)) as kept eqn:Ekept. clear Ekept.
  unfold constructor. cbn [_root]. rewrite Hroot. unfold init_root.
  destruct (kept =? "")%string eqn:E.
  - apply String.eqb_eq in E. now rewrite E.
  - rewrite Hs.
    assert (Hn : segs <> []).
    { intros ->. apply String.eqb_neq in E. apply E. apply str_inj. now rewrite Hs. }
    pose proof (normalize_path_key false false segs Hn Hp) as Hk.
    simpl app in Hk. rewrite app_nil_r in Hk. rewrite Hk.
    unfold render. destruct segs as [| x segs]; [contradiction |].
    rewrite strip_leading_slash_join by assumption.
    rewrite <- Hs. apply unstr_str.
Qed.

Lemma constructor_root_is_stable_witness :
  _root (constructor {| url := "u"; secret := "k"; folder := "media";
                        root := Some (_root (constructor slashed_config)); acl := None |})
  = _root (constructor slashed_config).
Proof.
  apply constructor_root_is_stable.
  - intros r Hr. injection Hr as <-. clean_path.
  - reflexivity.
Defined.

(** X17: [move] applies the root prefix, which the other operations do not:
    for a root prefix and paths made of plain names, the first call it
    makes is the provider's [move] from the root prefix, a slash and the
    source path to the root prefix, a slash and the destination path; the
    only call that can follow is the [remove] of that source key. *)
Theorem move_applies_the_root_prefix :
  forall (St : Type) (api : BucketApi St) (this : SupabaseStorage)
         (src dest : string) (s : St),
    plain_path (_root this) ->
    plain_path src ->
    plain_path dest ->
    let source := (_root this ++ "/" ++ src)%string in
    let target := (_root this ++ "/" ++ dest)%string in
    exists rest,
      snd (snd (move (traced api) this src dest (s, [])))
      = MoveCall (_folder this) source target :: rest
      /\ (rest = [] \/ rest = [RemoveCall (_folder this) [source]]).
Proof.
  intros St api this src dest s Hroot Hsrc Hdest source target.
  unfold source, target.
  rewrite <- !fullPath_plain by assumption.
  unfold move, bind. rewrite traced_copy.
  destruct (copy api this (_fullPath this src) (_fullPath this dest) s) as [[r | e] s1];
    simpl.
  - rewrite traced_delete.
    destruct (delete api this (_fullPath this src) s1) as [[d | e] s2]; simpl;
      eexists; (split; [reflexivity | right; reflexivity]).
  - eexists. split; [reflexivity | left; reflexivity].
Qed.

Lemma move_applies_the_root_prefix_witness :
  exists rest,
    snd (snd (move (traced MemBucket.api) assets_storage "x.png" "icons/y.png"
                   (sample_bucket, [])))
    = MoveCall "media" "assets/x.png" "assets/icons/y.png" :: rest
    /\ (rest = [] \/ rest = [RemoveCall "media" ["assets/x.png"]]).
Proof.
  apply (move_applies_the_root_prefix MemBucket.State MemBucket.api assets_storage
           "x.png" "icons/y.png" sample_bucket); plain_literal.
Defined.

(** ** The stream bridge *)

(** X18: when the [download] call yields a promise, [getStream] does not
    throw and returns a stream it has just created: its highWaterMark is 1,
    it has no listener and nothing has reached it.  The one call it has made
    is the download of the location as given, without root prefix, from the
    bucket of the adapter; the promise of that call is left pending behind
    the downloads that were pending already, and no other stream is
    touched. *)
Theorem getStream_returns_a_new_stream :
  forall (St : Type) (driver : Driver St) (this : SupabaseStorage)
         (location : string) (range : option Range) (w : World St),
    download_throws driver (_folder this) location (service w) = None ->
    let call := api_download (driver_api driver) (_folder this) location (service w) in
    let id := List.length (streams w) in
    let pending := {| job_promise := fst call; job_location := location; job_stream := id |} in
    let w1 := snd (getStream driver this location range w) in
    fst (getStream driver this location range w) = Returns id
    /\ w1 = {| service := snd call;
               jobs := jobs w ++ [pending];
               streams := streams w ++ [fresh_stream] |}
    /\ nth_error (streams w1) id = Some fresh_stream
    /\ nth_error (jobs w1) (List.length (jobs w)) = Some pending
    /\ (forall k, (k < id)%nat -> nth_error (streams w1) k = nth_error (streams w) k).
Proof.
  intros St driver this location range w H call id pending w1.
  unfold w1. rewrite (getStream_promised driver this location range w H).
  cbn [fst snd streams jobs]. fold call. fold id. fold pending.
  repeat split.
  - apply nth_error_app_last.
  - apply nth_error_app_last.
  - intros k Hk. now apply nth_error_app1.
Qed.

Lemma getStream_returns_a_new_stream_witness :
  fst (getStream node_driver rootless_storage "missing.txt" None idle_world) = Returns 0%nat
  /\ snd (getStream node_driver rootless_storage "missing.txt" None idle_world)
     = {| service := sample_bucket;
          jobs := [{| job_promise :=
                        Fulfilled {| data := None; error := Some MemBucket.not_found |};
                      job_location := "missing.txt";
                      job_stream := 0 |}];
          streams := [fresh_stream] |}.
Proof.
  pose proof (getStream_returns_a_new_stream MemBucket.State node_driver rootless_storage
                "missing.txt" None idle_world eq_refl) as H.
  split.
  - exact (proj1 H).
  - exact (proj1 (proj2 H)).
Defined.

(** X19: when a pending download settles, its reactions touch the stream
    of that download only.  A rejected call, a reply that reports an error,
    a reply without data and a reply whose data gives a web stream (which
    has no [pipe]) each end in one [emit] of an error: the rejection reason,
    a fresh [Error] with the reported message, the translated
    stream-not-available error, the [TypeError] of the [pipe] call.  With an
    ['error'] listener on the stream that is one error event and the chain
    ends normally; without one the stream receives nothing and the promise
    of the chain is rejected with the error.  A reply whose data gives a
    Node stream is piped into the stream. *)
Theorem settled_download_reaches_the_stream :
  forall (St : Type) (driver : Driver St) (this : SupabaseStorage)
         (n : nat) (w : World St) (j : Job) (st : PassThrough),
    nth_error (jobs w) n = Some j ->
    nth_error (streams w) (job_stream j) = Some st ->
    let rest := firstn n (jobs w) ++ skipn (S n) (jobs w) in
    let after (st' : PassThrough) : World St :=
      {| service := service w;
         jobs := rest;
         streams := set_nth (job_stream j) st' (streams w) |} in
    let emitted (e : Exn) : Outcome Exn unit * World St :=
      match error_listeners st with
      | O => (Throws e, {| service := service w; jobs := rest; streams := streams w |})
      | S _ => (Returns tt, after (push (ErrorEmitted e) st))
      end in
    (forall reason,
        job_promise j = Rejected reason ->
        run_job driver this n w = emitted (Native (Provided reason)))
    /\ (forall r pe,
           job_promise j = Fulfilled r -> error r = Some pe ->
           run_job driver this n w = emitted (Native (NewError (pe_message pe))))
    /\ (job_promise j = Fulfilled {| data := None; error := None |} ->
        run_job driver this n w
        = emitted (Portable (handleError (NewError "Blobclient stream was not available")
                                         (job_location j) (_folder this))))
    /\ (forall d,
           job_promise j = Fulfilled {| data := Some d; error := None |} ->
           run_job driver this n w
           = match blob_class driver with
             | NodeFetchBlob => (Returns tt, after (push (PipedFrom (blob_stream d)) st))
             | WebBlob => emitted (Native (NewTypeError "stream.pipe is not a function"))
             end).
Proof.
  intros St driver this n w j st Hj Hst rest after emitted.
  assert (Hemit : forall e,
             (fst (emit_error e st),
              {| service := service w; jobs := rest;
                 streams := set_nth (job_stream j) (snd (emit_error e st)) (streams w) |})
             = emitted e).
  { intros e. unfold emitted, emit_error, after.
    destruct (error_listeners st); [| reflexivity].
    simpl. now rewrite (set_nth_same _ _ _ Hst). }
  rewrite (run_job_at driver this n w j st Hj Hst). fold rest.
  split; [| split; [| split]].
  - intros reason H. rewrite H, reactions_rejected. apply Hemit.
  - intros r pe H Hr. rewrite H, (reactions_reported driver this _ r pe st Hr). apply Hemit.
  - intros H. rewrite H, reactions_no_data. apply Hemit.
  - intros d H. rewrite H, reactions_data.
    destruct (blob_class driver); [reflexivity | apply Hemit].
Qed.

Lemma settled_download_reaches_the_stream_witness :
  run_job node_driver rootless_storage 0 (listening_world node_driver "missing.txt")
  = (Returns tt,
     {| service := sample_bucket; jobs := [];
        streams := [{| highWaterMark := 1; error_listeners := 1;
                       events := [ErrorEmitted (Native (NewError "Object not found"))] |}] |})
  /\ run_job node_driver rootless_storage 0
       (snd (getStream node_driver rootless_storage "missing.txt" None idle_world))
     = (Throws (Native (NewError "Object not found")),
        {| service := sample_bucket; jobs := []; streams := [fresh_stream] |})
  /\ run_job web_driver rootless_storage 0 (listening_world web_driver "hello.txt")
     = (Returns tt,
        {| service := sample_bucket; jobs := [];
           streams := [{| highWaterMark := 1; error_listeners := 1;
                          events := [ErrorEmitted
                                       (Native (NewTypeError "stream.pipe is not a function"))]
                       |}] |}).
Proof.
  split; [| split].
  - apply (proj1 (proj2 (settled_download_reaches_the_stream MemBucket.State node_driver
                           rootless_storage 0 (listening_world node_driver "missing.txt")
                           {| job_promise :=
                                Fulfilled {| data := None; error := Some MemBucket.not_found |};
                              job_location := "missing.txt";
                              job_stream := 0 |}
                           (on_error fresh_stream) eq_refl eq_refl))
             {| data := None; error := Some MemBucket.not_found |} MemBucket.not_found);
      reflexivity.
  - apply (proj1 (proj2 (settled_download_reaches_the_stream MemBucket.State node_driver
                           rootless_storage 0
                           (snd (getStream node_driver rootless_storage "missing.txt" None
                                   idle_world))
                           {| job_promise :=
                                Fulfilled {| data := None; error := Some MemBucket.not_found |};
                              job_location := "missing.txt";
                              job_stream := 0 |}
                           fresh_stream eq_refl eq_refl))
             {| data := None; error := Some MemBucket.not_found |} MemBucket.not_found);
      reflexivity.
  - apply (proj2 (proj2 (proj2 (settled_download_reaches_the_stream MemBucket.State web_driver
                                  rootless_storage 0 (listening_world web_driver "hello.txt")
                                  {| job_promise :=
                                       Fulfilled
                                         {| data := Some {| blob_bytes := hello;
                                                            blob_type := "application/octet-stream" |};
                                            error := None |};
                                     job_location := "hello.txt";
                                     job_stream := 0 |}
                                  (on_error fresh_stream) eq_refl eq_refl)))
             {| blob_bytes := hello; blob_type := "application/octet-stream" |}).
    reflexivity.
Defined.

(** X20: [getStream] from call to settlement, when the [download] call
    yields a promise and the caller attaches an ['error'] listener to the
    stream it is given before the download settles.  Whatever else is
    pending, the settlement leaves exactly one event on that stream and
    nothing anywhere else: for a rejected call, a reply that reports an
    error, a reply without data and a reply whose data gives a web stream,
    an error event; for a reply whose data gives a Node stream, that stream
    piped in. *)
Theorem getStream_settles_in_one_event :
  forall (St : Type) (driver : Driver St) (this : SupabaseStorage)
         (location : string) (range : option Range) (w : World St),
    download_throws driver (_folder this) location (service w) = None ->
    let call := api_download (driver_api driver) (_folder this) location (service w) in
    let id := List.length (streams w) in
    let listening := listen id (snd (getStream driver this location range w)) in
    let ends (ev : StreamEvent) : Outcome Exn unit * World St :=
      (Returns tt,
       {| service := snd call;
          jobs := jobs w;
          streams := streams w
                     ++ [{| highWaterMark := 1; error_listeners := 1; events := [ev] |}] |}) in
    (forall reason,
        fst call = Rejected reason ->
        run_job driver this (List.length (jobs w)) listening
        = ends (ErrorEmitted (Native (Provided reason))))
    /\ (forall r pe,
           fst call = Fulfilled r -> error r = Some pe ->
           run_job driver this (List.length (jobs w)) listening
           = ends (ErrorEmitted (Native (NewError (pe_message pe)))))
    /\ (fst call = Fulfilled {| data := None; error := None |} ->
        run_job driver this (List.length (jobs w)) listening
        = ends (ErrorEmitted
                  (Portable (handleError (NewError "Blobclient stream was not available")
                                         location (_folder this)))))
    /\ (forall d,
           fst call = Fulfilled {| data := Some d; error := None |} ->
           run_job driver this (List.length (jobs w)) listening
           = ends (match blob_class driver with
                   | NodeFetchBlob => PipedFrom (blob_stream d)
                   | WebBlob =>
                       ErrorEmitted (Native (NewTypeError "stream.pipe is not a function"))
                   end)).
Proof.
  intros St driver this location range w H call id listening ends.
  unfold listening, id. rewrite (run_job_after_getStream driver this location range w H).
  fold call. unfold ends.
  split; [| split; [| split]].
  - intros reason Hc. rewrite Hc, reactions_rejected. reflexivity.
  - intros r pe Hc Hr. rewrite Hc, (reactions_reported driver this _ r pe _ Hr). reflexivity.
  - intros Hc. rewrite Hc, reactions_no_data. reflexivity.
  - intros d Hc. rewrite Hc, reactions_data. destruct (blob_class driver); reflexivity.
Qed.

Lemma getStream_settles_in_one_event_witness :
  run_job node_driver rootless_storage 0 (listening_world node_driver "hello.txt")
  = (Returns tt,
     {| service := sample_bucket; jobs := [];
        streams := [{| highWaterMark := 1; error_listeners := 1;
                       events := [PipedFrom {| ns_bytes := hello |}] |}] |}).
Proof.
  apply (proj2 (proj2 (proj2 (getStream_settles_in_one_event MemBucket.State node_driver
                                rootless_storage "hello.txt" None idle_world eq_refl)))
           {| blob_bytes := hello; blob_type := "application/octet-stream" |}).
  reflexivity.
Defined.
